(** * csv-to-md-table-action: the CSV parser and the Markdown table formatter

    A shallow embedding of [parseCSV], [convertToMarkdownTable],
    [csvToMarkdown] and [convertCSVToMarkdown] (its validation and the
    calls it makes to the host), and of the variants that the performance
    report lists ([parseSimpleCSV], [calculateColumnWidths],
    [getPaddedString]), followed by the properties of the specification
    that concern them and by further properties of the code.

    JavaScript strings are sequences of UTF-16 code units: a string is a
    [list N], [s.length] is [length s], [s[i]] is [s !! i] ([None] for
    [undefined]), and arrays are lists ([push] appends at the end). *)

From Stdlib Require Import NArith Ascii String.
From stdpp Require Import base tactics option numbers list strings pretty gmap.

Local Open Scope N_scope.
Local Open Scope nat_scope.
Local Open Scope list_scope.

(** ** Strings *)

Abbreviation char := N (only parsing).
Abbreviation jsstring := (list N) (only parsing).

(** The characters the source names: double quote, comma, line feed,
    carriage return, space, dash and pipe. *)
Definition DQ : char := 34%N.
Definition COMMA : char := 44%N.
Definition LF : char := 10%N.
Definition CR : char := 13%N.
Definition SPACE : char := 32%N.
Definition DASH : char := 45%N.
Definition PIPE : char := 124%N.

(** String literals of the source, written with Rocq's ASCII strings. *)
Definition str (s : string) : jsstring :=
  map N_of_ascii (list_ascii_of_string s).

(** [WhiteSpace] and [LineTerminator] of ECMAScript: the code units that
    [String.prototype.trim] removes. *)
Definition isWhiteSpace (c : char) : bool :=
  (c =? 9)%N || (c =? 10)%N || (c =? 11)%N || (c =? 12)%N || (c =? 13)%N
  || (c =? 32)%N || (c =? 160)%N || (c =? 5760)%N
  || ((8192 <=? c)%N && (c <=? 8202)%N)
  || (c =? 8232)%N || (c =? 8233)%N || (c =? 8239)%N || (c =? 8287)%N
  || (c =? 12288)%N || (c =? 65279)%N.

Fixpoint trimStart (s : jsstring) : jsstring :=
  match s with
  | [] => []
  | c :: s' => if isWhiteSpace c then trimStart s' else s
  end.

Definition trimEnd (s : jsstring) : jsstring :=
  reverse (trimStart (reverse s)).

(** [s.trim()] *)
Definition trim (s : jsstring) : jsstring := trimEnd (trimStart s).

(** [s.padEnd(width)]: spaces are added on the right up to [width]; a
    string that is already that long is returned as it is. *)
Definition padEnd (s : jsstring) (width : nat) : jsstring :=
  s ++ replicate (width - length s) SPACE.

(** [c.repeat(n)] for a one-character string. *)
Definition repeat (c : char) (n : nat) : jsstring := replicate n c.

(** [parts.join(sep)] *)
Fixpoint join (sep : jsstring) (parts : list jsstring) : jsstring :=
  match parts with
  | [] => []
  | [p] => p
  | p :: rest => p ++ sep ++ join sep rest
  end.

(** [s[i] === c], with [None] for the [undefined] past the end. *)
Definition is_char (o : option N) (c : char) : bool :=
  match o with
  | Some d => (d =? c)%N
  | None => false
  end.

(** ** The parser *)

Abbreviation row := (list (list N)) (only parsing).
Abbreviation table := (list (list (list N))) (only parsing).

(** The local variables of [parseCSV]. *)
Record pstate : Type := PState {
  rows : table;
  currentRow : row;
  currentCell : jsstring;
  insideQuotes : bool;
  i : nat
}.

Definition initial : pstate :=
  {| rows := []; currentRow := []; currentCell := [];
     insideQuotes := false; i := 0 |}.

(** [currentRow.some((cell) => cell.length > 0)] *)
Definition someNonEmpty (r : row) : bool :=
  existsb (fun cell => 0 <? length cell) r.

(** [if (currentRow.some(...)) rows.push(currentRow)] *)
Definition pushRow (rs : table) (r : row) : table :=
  if someNonEmpty r then rs ++ [r] else rs.

(** The branches of the loop body. *)

(** [currentCell += DQ; i += 2] *)
Definition escapedQuote (st : pstate) : pstate :=
  {| rows := rows st; currentRow := currentRow st;
     currentCell := currentCell st ++ [DQ];
     insideQuotes := insideQuotes st; i := i st + 2 |}.

(** [insideQuotes = !insideQuotes; i += 1] *)
Definition toggleQuote (st : pstate) : pstate :=
  {| rows := rows st; currentRow := currentRow st;
     currentCell := currentCell st;
     insideQuotes := negb (insideQuotes st); i := i st + 1 |}.

(** [currentRow.push(currentCell.trim()); currentCell = ''; i += 1] *)
Definition endCell (st : pstate) : pstate :=
  {| rows := rows st;
     currentRow := currentRow st ++ [trim (currentCell st)];
     currentCell := [];
     insideQuotes := insideQuotes st; i := i st + 1 |}.

(** The three row-ending branches differ only in how far [i] advances. *)
Definition endRow (advance : nat) (st : pstate) : pstate :=
  {| rows := pushRow (rows st) (currentRow st ++ [trim (currentCell st)]);
     currentRow := [];
     currentCell := [];
     insideQuotes := insideQuotes st; i := i st + advance |}.

(** [currentCell += char; i += 1] *)
Definition appendChar (c : char) (st : pstate) : pstate :=
  {| rows := rows st; currentRow := currentRow st;
     currentCell := currentCell st ++ [c];
     insideQuotes := insideQuotes st; i := i st + 1 |}.

(** One iteration of [while (i < csvString.length)]. *)
Definition body (csvString : jsstring) (st : pstate) : pstate :=
  let char := csvString !! i st in
  let nextChar := csvString !! (i st + 1) in
  if is_char char DQ then
    if insideQuotes st && is_char nextChar DQ then escapedQuote st
    else toggleQuote st
  else if is_char char COMMA && negb (insideQuotes st) then endCell st
  else if is_char char LF && negb (insideQuotes st) then endRow 1 st
  else if is_char char CR && is_char nextChar LF && negb (insideQuotes st)
  then endRow 2 st
  else if is_char char CR && negb (insideQuotes st) then endRow 1 st
  else
    match char with
    | Some c => appendChar c st
    | None => st
    end.

(** The loop, with a bound on the number of iterations. *)
Fixpoint loop (fuel : nat) (csvString : jsstring) (st : pstate) : pstate :=
  match fuel with
  | 0 => st
  | S fuel' =>
      if i st <? length csvString
      then loop fuel' csvString (body csvString st)
      else st
  end.

(** "Handle last cell and row", then [return rows]. *)
Definition finish (st : pstate) : table :=
  if (0 <? length (currentCell st)) || (0 <? length (currentRow st))
  then pushRow (rows st) (currentRow st ++ [trim (currentCell st)])
  else rows st.

(** Every iteration advances [i], so [csvString.length] iterations are
    enough ([loop_exits] below). *)
Definition parseCSV (csvString : jsstring) : table :=
  finish (loop (length csvString) csvString initial).

(** The same scan as a recursion on the input that is left, which is what
    the proofs follow ([loop_scan] relates the two). *)
Fixpoint scan (rest : jsstring) (st : pstate) : pstate :=
  match rest with
  | [] => st
  | c :: rest1 =>
      if (c =? DQ)%N then
        match rest1 with
        | c2 :: rest2 =>
            if insideQuotes st && (c2 =? DQ)%N then scan rest2 (escapedQuote st)
            else scan rest1 (toggleQuote st)
        | [] => scan rest1 (toggleQuote st)
        end
      else if (c =? COMMA)%N && negb (insideQuotes st)
      then scan rest1 (endCell st)
      else if (c =? LF)%N && negb (insideQuotes st)
      then scan rest1 (endRow 1 st)
      else if (c =? CR)%N && negb (insideQuotes st) then
        match rest1 with
        | c2 :: rest2 =>
            if (c2 =? LF)%N then scan rest2 (endRow 2 st)
            else scan rest1 (endRow 1 st)
        | [] => scan rest1 (endRow 1 st)
        end
      else scan rest1 (appendChar c st)
  end.

(** ** The formatter *)

(** [Math.max(...rows.map((row) => row.length))], for a table with a row. *)
Definition columnCount (rs : table) : nat := max_list (length <$> rs).

(** [[...row]] followed by [push('')] while the row is too short. *)
Definition normalizeRow (count : nat) (r : row) : row :=
  r ++ replicate (count - length r) [].

Definition normalizedRows (rs : table) : table :=
  normalizeRow (columnCount rs) <$> rs.

(** [row.forEach((cell, index) => columnWidths[index] =
      Math.max(columnWidths[index], cell.length))], from [index] on. The
    rows are normalized, so [index] is always within [columnWidths]
    ([normalizedRows_length] and [forEachCell_lookup] below); a write past
    the end, which would make a JavaScript array longer, does not occur,
    and the list update leaves the list as it is there. *)
Fixpoint forEachCell (r : row) (index : nat) (columnWidths : list nat)
  : list nat :=
  match r with
  | [] => columnWidths
  | cell :: r' =>
      forEachCell r' (S index)
        (<[index := Nat.max (default 0 (columnWidths !! index)) (length cell)]>
           columnWidths)
  end.

(** [normalizedRows.forEach((row) => row.forEach(...))] *)
Definition measureRows (rs : table) (columnWidths : list nat) : list nat :=
  foldl (fun ws r => forEachCell r 0 ws) columnWidths rs.

(** [columnWidths[index] = Math.max(width, 3)] for every index. *)
Definition clampWidths (columnWidths : list nat) : list nat :=
  (fun width => Nat.max width 3) <$> columnWidths.

(** [columnWidths] as it stands when the lines are built. *)
Definition columnWidths (rs : table) : list nat :=
  clampWidths
    (measureRows (normalizedRows rs) (replicate (columnCount rs) 0)).

(** [`| ${row.map((cell, index) =>
       cell.padEnd(columnWidths[index])).join(' | ')} |`]. For an index
    past the end of [columnWidths] the width is [undefined] and [padEnd]
    returns the cell as it is, as it does for the width 0. *)
Definition paddedCells (widths : list nat) (r : row) : row :=
  imap (fun index cell => padEnd cell (default 0 (widths !! index))) r.

Definition formatRow (widths : list nat) (r : row) : jsstring :=
  str "| " ++ join (str " | ") (paddedCells widths r) ++ str " |".

(** [`| ${columnWidths.map((width) => '-'.repeat(width)).join(' | ')} |`] *)
Definition separatorRow (widths : list nat) : jsstring :=
  str "| " ++ join (str " | ") (repeat DASH <$> widths) ++ str " |".

(** The array [markdownRows] just before it is joined. *)
Definition markdownRows (rs : table) : list jsstring :=
  match normalizedRows rs with
  | [] => []
  | header :: data =>
      formatRow (columnWidths rs) header
      :: separatorRow (columnWidths rs)
      :: (formatRow (columnWidths rs) <$> data)
  end.

Definition convertToMarkdownTable (rs : table) : jsstring :=
  match rs with
  | [] => []
  | _ :: _ => join [LF] (markdownRows rs)
  end.

Definition csvToMarkdown (csvString : jsstring) : jsstring :=
  convertToMarkdownTable (parseCSV csvString).

(** ** The entry point *)

(** What [convertCSVToMarkdown] hands to the host: the output it sets, or
    the message it fails with. [csvinput] is the string that
    [core.getInput] returned (the empty string when the input is absent). *)
Inductive outcome : Type :=
| SetOutput (markdownTable : jsstring)
| SetFailed (message : string).

(** [!s], for a string: only the empty string is falsy. *)
Definition falsy (s : jsstring) : bool :=
  match s with [] => true | _ => false end.

Definition convertCSVToMarkdown (csvinput : jsstring) : outcome :=
  if falsy csvinput || falsy (trim csvinput)
  then SetFailed "CSV input is empty or contains only whitespace"
  else
    let markdownTable := csvToMarkdown csvinput in
    if falsy markdownTable || (length (trim markdownTable) =? 0)
    then SetFailed "Failed to generate markdown table - output is empty"
    else SetOutput markdownTable.

(** *** The calls to the host

    [convertCSVToMarkdown] once more, with the calls it makes to the host
    in their order: [core.info], [console.log], [core.setOutput],
    [core.debug], and in the [catch] block [core.error], [core.debug] and
    [core.setFailed]. The numbers of the [core.info] messages are kept as
    numbers; the duration that one of them reports is not modelled. *)

(** [s.split(sep)] for a one-character separator. *)
Fixpoint split (sep : char) (s : jsstring) : list jsstring :=
  match s with
  | [] => [[]]
  | c :: s' =>
      if (c =? sep)%N then [] :: split sep s'
      else
        match split sep s' with
        | line :: lines => (c :: line) :: lines
        | [] => [[c]]
        end
  end.

Inductive hostCall : Type :=
| InfoProcessing (inputSize lineCount : nat)
| InfoCompleted
| InfoOutputSize (outputSize : nat)
| ConsoleLog (text : jsstring)
| CoreSetOutput (name : string) (value : jsstring)
| CoreDebug (text : jsstring)
| CoreError (message : string)
| CoreDebugStack
| CoreSetFailed (message : string).

(** The [catch] block, for an [Error] with the given message. *)
Definition catchError (message : string) : list hostCall :=
  [CoreError ("CSV to Markdown conversion failed: " ++ message)%string;
   CoreDebugStack;
   CoreSetFailed message].

(** [previewLines.join('\n')]: the first five lines, and [...] when there
    are more. *)
Definition previewLines (markdownTable : jsstring) : list jsstring :=
  let previewLines := take 5 (split LF markdownTable) in
  if 5 <? length (split LF markdownTable)
  then previewLines ++ [str "..."]
  else previewLines.

Definition hostCalls (csvinput : jsstring) : list hostCall :=
  if falsy csvinput || falsy (trim csvinput)
  then catchError "CSV input is empty or contains only whitespace"
  else
    InfoProcessing (length csvinput) (length (split LF csvinput))
    :: (let markdownTable := csvToMarkdown csvinput in
        if falsy markdownTable || (length (trim markdownTable) =? 0)
        then catchError "Failed to generate markdown table - output is empty"
        else
          [InfoCompleted;
           InfoOutputSize (length markdownTable);
           ConsoleLog (str "Markdown table Created:" ++ LF :: markdownTable);
           CoreSetOutput "markdown-table" markdownTable;
           CoreDebug (str "Markdown preview:" ++ LF ::
                      join [LF] (previewLines markdownTable))]).

(** ** The variants of the performance report

    The report of the repository on its optimizations lists a fast parser
    for input without quotes, a single pass for the column widths and a
    cache for the padding. *)

(** [!csvString.includes(DQ) && csvString.split('\n').length < 10000] *)
Definition isSimpleCSV (csvString : jsstring) : bool :=
  negb (existsb (fun c => (c =? DQ)%N) csvString)
  && (N.of_nat (length (split LF csvString)) <? 10000)%N.

(** [s.split(/\r?\n/)]: the string is cut at every line feed, and a
    carriage return just before the line feed goes with it. *)
Fixpoint splitLines (s : jsstring) : list jsstring :=
  match s with
  | [] => [[]]
  | c :: s' =>
      if (c =? LF)%N then [] :: splitLines s'
      else
        match s' with
        | c2 :: s'' =>
            if (c =? CR)%N && (c2 =? LF)%N then [] :: splitLines s''
            else
              match splitLines s' with
              | line :: lines => (c :: line) :: lines
              | [] => [[c]]
              end
        | [] => [[c]]
        end
  end.

Definition parseSimpleCSV (csvString : jsstring) : table :=
  let lines := splitLines (trim csvString) in
  (fun line => trim <$> split COMMA line) <$> lines.

(** The loop [for (let i = 0; i < columnCount; i += 1)] of
    [calculateColumnWidths], with the number of iterations that are left;
    [(row[i] || '').length] is [cellLength i row]. *)
Fixpoint widenColumns (r : row) (remaining i : nat) (columnWidths : list nat)
  : list nat :=
  match remaining with
  | 0 => columnWidths
  | S remaining' =>
      widenColumns r remaining' (S i)
        (if default 0 (columnWidths !! i) <? length (default [] (r !! i))
         then <[i := length (default [] (r !! i))]> columnWidths
         else columnWidths)
  end.

(** [calculateColumnWidths(rows)]. For no row at all, [Math.max()] is
    minus infinity and [new Array] throws: there is no result. *)
Definition calculateColumnWidths (rs : table) : option (list nat) :=
  match rs with
  | [] => None
  | _ :: _ =>
      Some (foldl (fun columnWidths r =>
                     widenColumns r (columnCount rs) 0 columnWidths)
              (replicate (columnCount rs) 3) rs)
  end.

(** [`${str.length}:${width}`], with the numbers in decimal. *)
Definition cacheKey (strLength width : nat) : string :=
  (pretty strLength +:+ ":" +:+ pretty width)%string.

(** [getPaddedString(str, width)], with the [Map] it reads and writes. *)
Definition getPaddedString (s : jsstring) (width : nat)
    (paddingCache : gmap string (list N)) : list N * gmap string (list N) :=
  match paddingCache !! cacheKey (length s) width with
  | Some padding => (s ++ padding, paddingCache)
  | None =>
      let padding := repeat SPACE (Nat.max 0 (width - length s)) in
      (s ++ padding, <[cacheKey (length s) width := padding]> paddingCache)
  end.

(** A run of calls of [getPaddedString], one after the other. *)
Fixpoint padEach (calls : list (list N * nat))
    (paddingCache : gmap string (list N))
  : list (list N) * gmap string (list N) :=
  match calls with
  | [] => ([], paddingCache)
  | (s, width) :: calls' =>
      let '(padded, cache1) := getPaddedString s width paddingCache in
      let '(rest, cache2) := padEach calls' cache1 in
      (padded :: rest, cache2)
  end.

(** ** Notions used in the statements *)

Definition allWhiteSpace (s : jsstring) : bool := forallb isWhiteSpace s.

(** The number of occurrences of [c] in a string, a row, a table, and in
    everything the parser holds. *)
Fixpoint countChar (c : char) (s : jsstring) : nat :=
  match s with
  | [] => 0
  | d :: s' => (if (d =? c)%N then 1 else 0) + countChar c s'
  end.

Definition countRow (c : char) (r : row) : nat :=
  sum_list_with (countChar c) r.

Definition countTable (c : char) (rs : table) : nat :=
  sum_list_with (countRow c) rs.

Definition countState (c : char) (st : pstate) : nat :=
  countTable c (rows st) + countRow c (currentRow st)
  + countChar c (currentCell st).

(** The condition of the escaped-quote branch of the loop body. *)
Definition atEscapedQuote (csvString : jsstring) (st : pstate) : bool :=
  is_char (csvString !! i st) DQ
  && insideQuotes st && is_char (csvString !! (i st + 1)) DQ.

(** A cell value with no comma, no double quote and no line terminator. *)
Definition plain (v : jsstring) : Prop :=
  Forall (fun c => c ≠ COMMA ∧ c ≠ DQ ∧ c ≠ LF ∧ c ≠ CR) v.

(** The same as a test. *)
Definition isPlain (v : jsstring) : bool :=
  forallb (fun c => negb ((c =? COMMA)%N || (c =? DQ)%N
                          || (c =? LF)%N || (c =? CR)%N)) v.

(** A line of a CSV text: cells separated by commas. *)
Definition csvLine (cells : row) : jsstring := join [COMMA] cells.

(** A line made of commas and white space only. *)
Definition blankLine (l : jsstring) : Prop :=
  Forall (fun c => c = COMMA ∨ isWhiteSpace c = true) l.

(** A character that is neither white space, nor a comma, nor a quote. *)
Definition content (c : char) : Prop :=
  isWhiteSpace c = false ∧ c ≠ COMMA ∧ c ≠ DQ.

(** A cell that trimming leaves as it is. *)
Definition trimmed (cell : jsstring) : Prop := trim cell = cell.

(** The cells the parser has closed so far. *)
Definition closedCells (st : pstate) : row :=
  concat (rows st) ++ currentRow st.

(** The parser's variables without the position. *)
Definition forget (st : pstate) : pstate :=
  {| rows := rows st; currentRow := currentRow st;
     currentCell := currentCell st; insideQuotes := insideQuotes st; i := 0 |}.

(** The parser is outside quotes, in a row whose cells are all empty so
    far, with only white space in the cell buffer. *)
Definition inBlankRow (st : pstate) : Prop :=
  insideQuotes st = false
  ∧ someNonEmpty (currentRow st) = false
  ∧ allWhiteSpace (currentCell st) = true.

(** The parser holds something that will end up in a row of the result. *)
Definition live (st : pstate) : Prop :=
  rows st ≠ []
  ∨ someNonEmpty (currentRow st) = true
  ∨ allWhiteSpace (currentCell st) = false.

(** The length of the cell of a row in column [j], zero when the row has
    no such cell. *)
Definition cellLength (j : nat) (r : row) : nat :=
  length (default [] (r !! j)).

(** Every cell the parser has closed is trimmed. *)
Definition trimmedState (st : pstate) : Prop :=
  Forall (Forall trimmed) (rows st) ∧ Forall trimmed (currentRow st).

(** The parser is outside quotes at the start of a row, with only white
    space in the cell buffer. *)
Definition atRowStart (st : pstate) : Prop :=
  insideQuotes st = false
  ∧ currentRow st = []
  ∧ allWhiteSpace (currentCell st) = true.

(** Two states of the parser that differ only by white space at the start
    of the cell buffer (and by the position). *)
Definition sameButPadding (st1 st2 : pstate) : Prop :=
  rows st1 = rows st2
  ∧ currentRow st1 = currentRow st2
  ∧ insideQuotes st1 = insideQuotes st2
  ∧ ∃ w, allWhiteSpace w = true ∧ currentCell st1 = w ++ currentCell st2.

(** A cell written between quotes, with the quotes it contains doubled; a
    line of such cells; a text of such lines. *)
Fixpoint escapeQuotes (v : jsstring) : jsstring :=
  match v with
  | [] => []
  | c :: v' => (if (c =? DQ)%N then [DQ; DQ] else [c]) ++ escapeQuotes v'
  end.

Definition quoteField (v : jsstring) : jsstring :=
  DQ :: escapeQuotes v ++ [DQ].

Definition quotedLine (cells : row) : jsstring :=
  join [COMMA] (quoteField <$> cells).

Definition quotedText (rs : table) : jsstring :=
  join [LF] (quotedLine <$> rs).

(** The rows with every cell trimmed. *)
Definition trimRows (rs : table) : table :=
  (fun r : list (list N) => trim <$> r) <$> rs.

(** The rows that the parser keeps. *)
Definition keptRows (rs : table) : table := List.filter someNonEmpty rs.

(** Every padding that the cache holds is the padding that would be
    computed. *)
Definition cacheSound (paddingCache : gmap string (list N)) : Prop :=
  ∀ strLength width padding,
    paddingCache !! cacheKey strLength width = Some padding →
    padding = replicate (width - strLength) SPACE.

(** A string without a colon. *)
Fixpoint noColon (s : string) : Prop :=
  match s with
  | EmptyString => True
  | String c s' => c ≠ ":"%char ∧ noColon s'
  end.

(** The parser with the rows [before] in front of the rows it has. *)
Definition withRowsBefore (before : table) (st : pstate) : pstate :=
  {| rows := before ++ rows st; currentRow := currentRow st;
     currentCell := currentCell st; insideQuotes := insideQuotes st;
     i := i st |}.

(** ** Running the model on the scenarios of the test suite *)

Example parse_minimal :
  parseCSV (str "Header" ++ LF :: str "Value") = [[str "Header"]; [str "Value"]].
Proof. vm_compute. reflexivity. Qed.

Example format_minimal :
  csvToMarkdown (str "Header" ++ LF :: str "Value")
  = str "| Header |" ++ LF :: str "| ------ |" ++ LF :: str "| Value  |".
Proof. vm_compute. reflexivity. Qed.

Example parse_crlf :
  parseCSV (str "a,b" ++ CR :: LF :: str "c,d" ++ [CR] ++ str "e,f")
  = [[str "a"; str "b"]; [str "c"; str "d"]; [str "e"; str "f"]].
Proof. vm_compute. reflexivity. Qed.

Example format_ragged :
  csvToMarkdown (str "Name,Age" ++ LF :: str "John,25,Extra")
  = str "| Name | Age |       |" ++ LF ::
    str "| ---- | --- | ----- |" ++ LF ::
    str "| John | 25  | Extra |".
Proof. vm_compute. reflexivity. Qed.

(** * Properties *)

(** ** Characters and [trim] *)

Lemma countChar_app c s t : countChar c (s ++ t) = countChar c s + countChar c t.
Proof. induction s as [|d s IH]; simpl; [done | rewrite IH; lia]. Qed.

Lemma countChar_reverse c s : countChar c (reverse s) = countChar c s.
Proof.
  induction s as [|d s IH]; [done |].
  rewrite reverse_cons, countChar_app, IH. simpl. lia.
Qed.

Lemma countChar_replicate_ne c d n : d ≠ c → countChar c (replicate n d) = 0.
Proof.
  intros Hne. induction n as [|n IH]; simpl; [done |].
  rewrite IH. destruct (N.eqb_spec d c); [done | lia].
Qed.

Lemma allWhiteSpace_app s t :
  allWhiteSpace (s ++ t) = allWhiteSpace s && allWhiteSpace t.
Proof. apply forallb_app. Qed.

Lemma allWhiteSpace_reverse s : allWhiteSpace (reverse s) = allWhiteSpace s.
Proof.
  induction s as [|c s IH]; [done |].
  rewrite reverse_cons, allWhiteSpace_app, IH. simpl.
  destruct (isWhiteSpace c), (allWhiteSpace s); done.
Qed.

Lemma trimStart_allWhiteSpace s : allWhiteSpace s = true → trimStart s = [].
Proof.
  induction s as [|c s IH]; simpl; [done |].
  destruct (isWhiteSpace c); simpl; [done | discriminate].
Qed.

Lemma trimStart_app_ws a s :
  allWhiteSpace a = true → trimStart (a ++ s) = trimStart s.
Proof.
  induction a as [|c a IH]; simpl; [done |].
  destruct (isWhiteSpace c); simpl; [done | discriminate].
Qed.

Lemma trimStart_split s :
  ∃ a, s = a ++ trimStart s ∧ allWhiteSpace a = true.
Proof.
  induction s as [|c s (a & Hs & Ha)]; simpl.
  - by exists [].
  - destruct (isWhiteSpace c) eqn:Hc.
    + exists (c :: a). simpl. rewrite Hc, Ha. split; [by f_equal | done].
    + by exists [].
Qed.

Lemma trimStart_head s c t : trimStart s = c :: t → isWhiteSpace c = false.
Proof.
  induction s as [|d s IH]; simpl; [done |].
  destruct (isWhiteSpace d) eqn:Hd; [done |]. by intros [= -> ->].
Qed.

Lemma trimStart_cons_keep c s : isWhiteSpace c = false → trimStart (c :: s) = c :: s.
Proof. intros Hc. simpl. by rewrite Hc. Qed.

(** [trimStart] of a string with one more character at the end. *)
Lemma trimStart_snoc s c :
  trimStart (s ++ [c]) =
  match trimStart s with
  | [] => if isWhiteSpace c then [] else [c]
  | t => t ++ [c]
  end.
Proof.
  induction s as [|d s IH]; simpl; [done |].
  by destruct (isWhiteSpace d).
Qed.

(** [trimEnd], read from the left. *)
Lemma trimEnd_cons c s :
  trimEnd (c :: s) =
  match trimEnd s with
  | [] => if isWhiteSpace c then [] else [c]
  | t => c :: t
  end.
Proof.
  unfold trimEnd. rewrite reverse_cons, trimStart_snoc.
  destruct (trimStart (reverse s)) as [|d t] eqn:Ht.
  - by destruct (isWhiteSpace c).
  - rewrite reverse_app. simpl.
    destruct (reverse (d :: t)) eqn:Hr; [| done].
    apply (f_equal length) in Hr. rewrite length_reverse in Hr. done.
Qed.

Lemma trimEnd_nil : trimEnd [] = [].
Proof. done. Qed.

Lemma trimEnd_app_ws s b : allWhiteSpace b = true → trimEnd (s ++ b) = trimEnd s.
Proof.
  intros Hb. unfold trimEnd. rewrite reverse_app, trimStart_app_ws; [done |].
  by rewrite allWhiteSpace_reverse.
Qed.

Lemma trimEnd_split s : ∃ b, s = trimEnd s ++ b ∧ allWhiteSpace b = true.
Proof.
  destruct (trimStart_split (reverse s)) as (a & Hs & Ha).
  exists (reverse a). rewrite allWhiteSpace_reverse. split; [| done].
  unfold trimEnd. rewrite <- reverse_app, <- Hs. by rewrite reverse_involutive.
Qed.

Lemma trimEnd_keeps_head c s :
  isWhiteSpace c = false → ∃ t, trimEnd (c :: s) = c :: t.
Proof.
  intros Hc. rewrite trimEnd_cons, Hc. destruct (trimEnd s); eauto.
Qed.

Lemma trimEnd_idemp s : trimEnd (trimEnd s) = trimEnd s.
Proof.
  induction s as [|c s IH]; [done |].
  rewrite trimEnd_cons. destruct (trimEnd s) as [|d t] eqn:Ht.
  - destruct (isWhiteSpace c) eqn:Hc; [done |].
    by rewrite trimEnd_cons, trimEnd_nil, Hc.
  - by rewrite trimEnd_cons, IH.
Qed.

Lemma trim_idemp s : trim (trim s) = trim s.
Proof.
  unfold trim. destruct (trimStart s) as [|c t] eqn:Hs; [done |].
  pose proof (trimStart_head _ _ _ Hs) as Hc.
  destruct (trimEnd_keeps_head c t Hc) as [u Hu].
  rewrite Hu, trimStart_cons_keep by done. rewrite <- Hu. apply trimEnd_idemp.
Qed.

Lemma trim_allWhiteSpace s : allWhiteSpace s = true → trim s = [].
Proof. intros Hs. unfold trim. by rewrite trimStart_allWhiteSpace. Qed.

Lemma trim_app_ws s b : allWhiteSpace b = true → trim (s ++ b) = trim s.
Proof.
  intros Hb. unfold trim.
  destruct (trimStart_split s) as (a & Hs & Ha).
  rewrite Hs at 1. rewrite <- app_assoc, trimStart_app_ws by done.
  destruct (trimStart s) as [|c t] eqn:Ht.
  - simpl. rewrite trimStart_allWhiteSpace by done. done.
  - simpl. rewrite (trimStart_head _ _ _ Ht). by rewrite app_comm_cons, trimEnd_app_ws.
Qed.

(** A string with a character that is not white space does not trim to
    the empty string. *)
Lemma trim_nonblank s c : c ∈ s → isWhiteSpace c = false → trim s ≠ [].
Proof.
  intros Hin Hc Ht. unfold trim in Ht.
  destruct (trimStart_split s) as (a & Hs & Ha).
  destruct (trimEnd_split (trimStart s)) as (b & Hs' & Hb).
  rewrite Ht in Hs'. simpl in Hs'. rewrite Hs' in Hs. rewrite Hs in Hin.
  assert (allWhiteSpace (a ++ b) = true) as Hab
    by (rewrite allWhiteSpace_app, Ha, Hb; done).
  unfold allWhiteSpace in Hab. rewrite forallb_forall in Hab.
  apply list_elem_of_In in Hin. apply Hab in Hin. congruence.
Qed.

Lemma trim_blank_iff s : trim s = [] ↔ allWhiteSpace s = true.
Proof.
  split; [| apply trim_allWhiteSpace].
  intros Ht. destruct (allWhiteSpace s) eqn:Hs; [done | exfalso].
  unfold allWhiteSpace in Hs.
  assert (∃ c, c ∈ s ∧ isWhiteSpace c = false) as (c & Hin & Hc).
  { clear Ht. induction s as [|d s IH]; simpl in Hs; [done |].
    destruct (isWhiteSpace d) eqn:Hd.
    - destruct (IH Hs) as (c & ? & ?). exists c. split; [by right | done].
    - exists d. split; [by left | done]. }
  by apply (trim_nonblank s c).
Qed.

(** Trimming removes white space only. *)
Lemma countChar_trimStart c s :
  isWhiteSpace c = false → countChar c (trimStart s) = countChar c s.
Proof.
  intros Hc. induction s as [|d s IH]; simpl; [done |].
  destruct (isWhiteSpace d) eqn:Hd; [| done].
  rewrite IH. destruct (N.eqb_spec d c); [congruence | done].
Qed.

Lemma countChar_trim c s :
  isWhiteSpace c = false → countChar c (trim s) = countChar c s.
Proof.
  intros Hc. unfold trim, trimEnd.
  by rewrite countChar_reverse, countChar_trimStart, countChar_reverse,
    countChar_trimStart.
Qed.

(** ** The loop and the scan *)

(** Induction on a string for a scan that consumes one or two characters
    at a time. *)
Lemma two_step_ind (P : list N → Prop) :
  P [] →
  (∀ c, P [c]) →
  (∀ c d s, P s → P (d :: s) → P (c :: d :: s)) →
  ∀ s, P s.
Proof.
  intros Hnil Hone Htwo s.
  assert (P s ∧ ∀ c, P (c :: s)) as [? _]; [| done].
  induction s as [|d s [IH1 IH2]]; [by split |].
  split; [apply IH2 |]. intros c. by apply Htwo.
Qed.

Lemma is_char_Some d c : is_char (Some d) c = (d =? c)%N.
Proof. done. Qed.

Lemma lookup_drop_head (s : list N) n c rest :
  drop n s = c :: rest → s !! n = Some c ∧ drop (S n) s = rest.
Proof.
  revert n. induction s as [|d s IH]; intros [|n]; simpl; try done.
  - by intros [= -> ->]; rewrite drop_0.
  - apply IH.
Qed.

Lemma drop_nil_lookup (s : list N) n : drop n s = [] → s !! n = None.
Proof.
  intros H. apply lookup_ge_None. apply (f_equal length) in H.
  rewrite length_drop in H. simpl in H. lia.
Qed.

(** One iteration of the loop is one step of the scan. *)
Lemma loop_scan fuel s st :
  length s - i st ≤ fuel → loop fuel s st = scan (drop (i st) s) st.
Proof.
  revert st. induction fuel as [|fuel IH]; intros st Hfuel.
  - simpl. rewrite drop_ge by lia. done.
  - simpl. destruct (Nat.ltb_spec (i st) (length s)) as [Hlt|Hge];
      [| by rewrite drop_ge by lia].
    destruct (drop (i st) s) as [|c rest1] eqn:Hd.
    { apply (f_equal length) in Hd. rewrite length_drop in Hd. simpl in Hd. lia. }
    apply lookup_drop_head in Hd as [Hc Hd].
    assert (∀ n st', i st' = i st + S n → n ≤ 1 →
              loop fuel s st' = scan (drop n rest1) st') as Hnext.
    { intros n st' Hi Hn. rewrite IH by lia. rewrite Hi, <- Hd, drop_drop.
      do 2 f_equal. lia. }
    assert (∀ st', i st' = i st + 1 → loop fuel s st' = scan rest1 st') as Hnext1.
    { intros st' Hi. rewrite (Hnext 0) by (done || lia). done. }
    unfold body. rewrite Hc, !is_char_Some. simpl scan.
    replace (i st + 1) with (S (i st)) by lia.
    destruct rest1 as [|c2 rest2] eqn:Hr.
    + rewrite (drop_nil_lookup _ _ Hd). simpl is_char.
      rewrite !andb_false_r. simpl andb.
      destruct (c =? DQ)%N; [by apply Hnext1; simpl; lia |].
      destruct ((c =? COMMA)%N && negb (insideQuotes st));
        [by apply Hnext1; simpl; lia |].
      destruct ((c =? LF)%N && negb (insideQuotes st));
        [by apply Hnext1; simpl; lia |].
      destruct ((c =? CR)%N && negb (insideQuotes st));
        by apply Hnext1; simpl; lia.
    + apply lookup_drop_head in Hd as [Hc2 Hd2]. rewrite Hc2, !is_char_Some.
      assert (∀ st', i st' = i st + 2 → loop fuel s st' = scan rest2 st')
        as Hnext2.
      { intros st' Hi. rewrite (Hnext 1) by (done || lia). done. }
      destruct (c =? DQ)%N.
      { destruct (insideQuotes st && (c2 =? DQ)%N);
          [apply Hnext2 | apply Hnext1]; simpl; lia. }
      destruct ((c =? COMMA)%N && negb (insideQuotes st));
        [by apply Hnext1; simpl; lia |].
      destruct ((c =? LF)%N && negb (insideQuotes st));
        [by apply Hnext1; simpl; lia |].
      destruct (c =? CR)%N, (insideQuotes st), (c2 =? LF)%N; simpl;
        (apply Hnext1 || apply Hnext2); simpl; lia.
Qed.

Lemma parseCSV_scan s : parseCSV s = finish (scan s initial).
Proof. unfold parseCSV. by rewrite loop_scan by (simpl; lia). Qed.

(** The scan leaves [i] at the end of what it was given. *)
(** The scan of one character, and of two or more. *)
Lemma scan_one c st :
  scan [c] st =
  if (c =? DQ)%N then toggleQuote st
  else if (c =? COMMA)%N && negb (insideQuotes st) then endCell st
  else if (c =? LF)%N && negb (insideQuotes st) then endRow 1 st
  else if (c =? CR)%N && negb (insideQuotes st) then endRow 1 st
  else appendChar c st.
Proof. simpl. by repeat case_match. Qed.

Lemma scan_two c d s st :
  scan (c :: d :: s) st =
  if (c =? DQ)%N then
    if insideQuotes st && (d =? DQ)%N then scan s (escapedQuote st)
    else scan (d :: s) (toggleQuote st)
  else if (c =? COMMA)%N && negb (insideQuotes st)
  then scan (d :: s) (endCell st)
  else if (c =? LF)%N && negb (insideQuotes st)
  then scan (d :: s) (endRow 1 st)
  else if (c =? CR)%N && negb (insideQuotes st) then
    if (d =? LF)%N then scan s (endRow 2 st)
    else scan (d :: s) (endRow 1 st)
  else scan (d :: s) (appendChar c st).
Proof. done. Qed.

(** The scan leaves [i] at the end of what it was given. *)
Lemma scan_i s : ∀ st, i (scan s st) = i st + length s.
Proof.
  induction s as [| c | c d s IH1 IH2] using two_step_ind; intros st.
  - simpl. lia.
  - rewrite scan_one. repeat case_match; simpl; lia.
  - rewrite scan_two. repeat case_match; rewrite ?IH1, ?IH2; simpl; lia.
Qed.

(** The loop of [parseCSV] stops because its condition fails, not because
    the bound on the iterations is reached. *)
Lemma loop_exits s : i (loop (length s) s initial) = length s.
Proof. rewrite loop_scan by (simpl; lia). simpl. by rewrite scan_i. Qed.

(** A property of the parser's variables that every branch of the loop
    body keeps is kept by the whole scan. *)
Lemma scan_preserves (Inv : pstate → Prop) :
  (∀ st, Inv st → Inv (escapedQuote st)) →
  (∀ st, Inv st → Inv (toggleQuote st)) →
  (∀ st, Inv st → Inv (endCell st)) →
  (∀ n st, Inv st → Inv (endRow n st)) →
  (∀ c st, Inv st → Inv (appendChar c st)) →
  ∀ s st, Inv st → Inv (scan s st).
Proof.
  intros Hesc Htog Hcell Hrow Happ s.
  induction s as [| c | c d s IH1 IH2] using two_step_ind; intros st Hst.
  - done.
  - rewrite scan_one. repeat case_match; auto.
  - rewrite scan_two. repeat case_match; auto.
Qed.

(** *** Rows that are kept *)

Lemma someNonEmpty_app r1 r2 :
  someNonEmpty (r1 ++ r2) = someNonEmpty r1 || someNonEmpty r2.
Proof. apply existsb_app. Qed.

Lemma someNonEmpty_true r :
  someNonEmpty r = true ↔ ∃ cell, cell ∈ r ∧ cell ≠ [].
Proof.
  unfold someNonEmpty. rewrite existsb_exists. split.
  - intros (cell & Hin & Hlen). exists cell. rewrite list_elem_of_In.
    split; [done |]. intros ->. done.
  - intros (cell & Hin & Hne). exists cell. rewrite <- list_elem_of_In.
    split; [done |]. destruct cell; [done | done].
Qed.

Lemma someNonEmpty_false r :
  someNonEmpty r = false ↔ Forall (fun cell => cell = []) r.
Proof.
  induction r as [|cell r IH]; simpl; [done |].
  rewrite Forall_cons, <- IH. destruct cell; simpl; [| by split; [| intros []]].
  by split; [| intros []].
Qed.

Lemma Forall_pushRow (P : list (list N) → Prop) rs new :
  Forall P rs → (someNonEmpty new = true → P new) → Forall P (pushRow rs new).
Proof.
  intros Hrs Hnew. unfold pushRow. destruct (someNonEmpty new); [| done].
  apply Forall_app. split; [done |]. by apply Forall_singleton, Hnew.
Qed.

Lemma Forall_finish (P : list (list N) → Prop) st :
  Forall P (rows st) →
  (someNonEmpty (currentRow st ++ [trim (currentCell st)]) = true →
   P (currentRow st ++ [trim (currentCell st)])) →
  Forall P (finish st).
Proof.
  intros Hrs Hnew. unfold finish. case_match; [| done]. by apply Forall_pushRow.
Qed.

(** Every row that [parseCSV] returns has a cell that is not empty. *)
Lemma parseCSV_rows_kept s :
  Forall (fun r => someNonEmpty r = true) (parseCSV s).
Proof.
  rewrite parseCSV_scan. apply Forall_finish; [| done].
  apply (scan_preserves (fun st => Forall (fun r => someNonEmpty r = true) (rows st)));
    try done.
  intros n st Hst. simpl. by apply Forall_pushRow.
Qed.

Lemma parseCSV_rows_nonempty s : Forall (fun r => 0 < length r) (parseCSV s).
Proof.
  eapply Forall_impl; [apply parseCSV_rows_kept |].
  intros [|cell r]; simpl; [done | lia].
Qed.

(** *** Cells are trimmed *)

Lemma trimmed_trim cell : trimmed (trim cell).
Proof. apply trim_idemp. Qed.

Lemma trimmed_close r cell :
  Forall trimmed r → Forall trimmed (r ++ [trim cell]).
Proof.
  intros Hr. apply Forall_app. split; [done |].
  apply Forall_singleton, trimmed_trim.
Qed.

Lemma scan_trimmed s st : trimmedState st → trimmedState (scan s st).
Proof.
  apply scan_preserves; clear; unfold trimmedState; simpl; try done.
  - intros st [Hrs Hr]. split; [done |]. by apply trimmed_close.
  - intros _ st [Hrs Hr]. split; [| done].
    apply Forall_pushRow; [done |]. intros _. by apply trimmed_close.
Qed.

Lemma parseCSV_trimmed s : Forall (Forall trimmed) (parseCSV s).
Proof.
  rewrite parseCSV_scan.
  destruct (scan_trimmed s initial) as [Hrs Hr]; [by split |].
  apply Forall_finish; [done |]. intros _. by apply trimmed_close.
Qed.

(** A closed cell is the trimmed cell buffer of the moment it was closed:
    an iteration adds no other cell. *)
Lemma closedCells_pushRow rs new :
  Forall (fun cell => cell ∈ concat rs ∨ cell ∈ new) (concat (pushRow rs new)).
Proof.
  unfold pushRow. destruct (someNonEmpty new).
  - rewrite concat_app. simpl. rewrite app_nil_r. apply Forall_forall.
    intros cell. rewrite elem_of_app. tauto.
  - apply Forall_forall. tauto.
Qed.

Lemma closedCells_close rs r cell :
  Forall (fun c => c ∈ concat rs ++ r ∨ c = trim cell)
    (concat (pushRow rs (r ++ [trim cell]))).
Proof.
  eapply Forall_impl; [apply closedCells_pushRow |]. simpl. intros c.
  rewrite !elem_of_app, list_elem_of_singleton. tauto.
Qed.

Lemma closedCells_body csvString st :
  Forall (fun cell => cell ∈ closedCells st ∨ cell = trim (currentCell st))
    (closedCells (body csvString st)).
Proof.
  assert (Forall (fun cell => cell ∈ closedCells st ∨ cell = trim (currentCell st))
            (closedCells st)) as Hsame by (apply Forall_forall; tauto).
  assert (∀ n, Forall (fun cell => cell ∈ closedCells st ∨ cell = trim (currentCell st))
            (closedCells (endRow n st))) as Hrow.
  { intros n. unfold closedCells at 2. simpl. rewrite app_nil_r.
    apply closedCells_close. }
  unfold body. repeat case_match; try done.
  unfold closedCells at 2. simpl. rewrite app_assoc.
  apply Forall_app. split; [done |]. apply Forall_singleton. by right.
Qed.

Lemma closedCells_finish st :
  Forall (fun cell => cell ∈ closedCells st ∨ cell = trim (currentCell st))
    (concat (finish st)).
Proof.
  unfold finish. case_match.
  - apply closedCells_close.
  - apply Forall_forall. intros cell Hin. left. unfold closedCells.
    rewrite elem_of_app. by left.
Qed.

(** C5: every cell of the parser's output is the trim of the cell buffer
    it was closed from, for quoted cells as for the others: each iteration
    and the finalization add no cell but the trimmed buffer, every cell of
    the result is a fixed point of [trim], a quoted field with padding
    loses the white space at its edges, and white space inside a cell
    stays. *)
Theorem cells_are_trimmed :
  (∀ csvString st,
     Forall (fun cell => cell ∈ closedCells st ∨ cell = trim (currentCell st))
       (closedCells (body csvString st)))
  ∧ (∀ st,
     Forall (fun cell => cell ∈ closedCells st ∨ cell = trim (currentCell st))
       (concat (finish st)))
  ∧ (∀ csvString, Forall (Forall (fun cell => trim cell = cell)) (parseCSV csvString))
  ∧ parseCSV (str "h" ++ LF :: DQ :: str " padded " ++ [DQ])
    = [[str "h"]; [str "padded"]]
  ∧ parseCSV (DQ :: str "  a  b " ++ [DQ]) = [[str "a  b"]].
Proof.
  split; [apply closedCells_body |].
  split; [apply closedCells_finish |].
  split; [apply parseCSV_trimmed |].
  split; vm_compute; reflexivity.
Qed.

(** ** Quotes *)

Lemma countRow_app c r1 r2 : countRow c (r1 ++ r2) = countRow c r1 + countRow c r2.
Proof. apply sum_list_with_app. Qed.

Lemma countTable_app c rs1 rs2 :
  countTable c (rs1 ++ rs2) = countTable c rs1 + countTable c rs2.
Proof. apply sum_list_with_app. Qed.

Lemma countRow_dropped c r : someNonEmpty r = false → countRow c r = 0.
Proof.
  rewrite someNonEmpty_false. induction 1 as [|cell r -> _ IH]; [done |].
  unfold countRow in *. simpl. by rewrite IH.
Qed.

(** A row that is dropped holds no character at all, so closing a row
    loses none. *)
Lemma countTable_pushRow c rs r :
  countTable c (pushRow rs r) = countTable c rs + countRow c r.
Proof.
  unfold pushRow. destruct (someNonEmpty r) eqn:Hr.
  - rewrite countTable_app. unfold countTable at 2. simpl. lia.
  - by rewrite countRow_dropped.
Qed.

Lemma countRow_close c r cell :
  isWhiteSpace c = false →
  countRow c (r ++ [trim cell]) = countRow c r + countChar c cell.
Proof.
  intros Hc. rewrite countRow_app. unfold countRow at 2. simpl.
  rewrite countChar_trim by done. lia.
Qed.

Lemma countState_escapedQuote st :
  countState DQ (escapedQuote st) = countState DQ st + 1.
Proof. unfold countState. simpl. rewrite countChar_app. simpl. lia. Qed.

Lemma countState_toggleQuote c st : countState c (toggleQuote st) = countState c st.
Proof. done. Qed.

Lemma countState_endCell c st :
  isWhiteSpace c = false → countState c (endCell st) = countState c st.
Proof. intros Hc. unfold countState. simpl. rewrite countRow_close by done. lia. Qed.

Lemma countState_endRow c n st :
  isWhiteSpace c = false → countState c (endRow n st) = countState c st.
Proof.
  intros Hc. unfold countState. simpl.
  rewrite countTable_pushRow, countRow_close by done. unfold countRow. simpl. lia.
Qed.

Lemma countState_appendChar c d st :
  countState c (appendChar d st)
  = countState c st + (if (d =? c)%N then 1 else 0).
Proof. unfold countState. simpl. rewrite countChar_app. simpl. lia. Qed.

Lemma countTable_finish c st :
  isWhiteSpace c = false → countTable c (finish st) = countState c st.
Proof.
  intros Hc. unfold finish, countState. case_match eqn:Hlen.
  - rewrite countTable_pushRow, countRow_close by done. lia.
  - apply orb_false_elim in Hlen as [Hcell Hrow].
    destruct (currentCell st), (currentRow st); try done. simpl.
    unfold countRow. simpl. lia.
Qed.

(** An iteration writes one quote when it takes the escaped-quote branch
    and none otherwise. *)
Lemma countState_body csvString st :
  countState DQ (body csvString st)
  = countState DQ st + (if atEscapedQuote csvString st then 1 else 0).
Proof.
  unfold body, atEscapedQuote.
  destruct (csvString !! i st) as [c|] eqn:Hc; simpl is_char.
  2: { simpl. lia. }
  destruct (c =? DQ)%N eqn:Hq.
  - simpl andb. destruct (insideQuotes st && is_char (csvString !! (i st + 1)) DQ).
    + apply countState_escapedQuote.
    + rewrite countState_toggleQuote. lia.
  - simpl andb.
    repeat case_match;
      rewrite ?countState_endCell, ?countState_endRow, ?countState_appendChar, ?Hq
        by done; lia.
Qed.

(** Every quote of the result comes from a pair of quotes of the input. *)
Lemma scan_quotes_bound s :
  ∀ st, 2 * countState DQ (scan s st) ≤ 2 * countState DQ st + countChar DQ s.
Proof.
  induction s as [| c | c d s IH1 IH2] using two_step_ind; intros st.
  - simpl. lia.
  - rewrite scan_one. simpl countChar.
    destruct (c =? DQ)%N eqn:Hq; [rewrite countState_toggleQuote; lia |].
    repeat case_match;
      rewrite ?countState_endCell, ?countState_endRow, ?countState_appendChar, ?Hq
        by done; lia.
  - rewrite scan_two.
    change (countChar DQ (c :: d :: s))
      with ((if (c =? DQ)%N then 1 else 0) + countChar DQ (d :: s)).
    destruct (c =? DQ)%N eqn:Hq.
    + destruct (insideQuotes st && (d =? DQ)%N) eqn:Hesc.
      * apply andb_prop in Hesc as [_ Hd]. simpl. rewrite Hd.
        specialize (IH1 (escapedQuote st)).
        rewrite countState_escapedQuote in IH1. lia.
      * specialize (IH2 (toggleQuote st)).
        rewrite countState_toggleQuote in IH2. lia.
    + repeat case_match;
        match goal with
        | |- context [scan ?t ?st'] =>
            first [ specialize (IH2 st'); unify t (d :: s)
                  | specialize (IH1 st') ]
        end;
        rewrite ?countState_endCell, ?countState_endRow, ?countState_appendChar, ?Hq
          in * by done; simpl in *; repeat case_match; lia.
Qed.

Lemma parseCSV_quotes_bound s :
  2 * countTable DQ (parseCSV s) ≤ countChar DQ s.
Proof.
  rewrite parseCSV_scan, countTable_finish by done.
  pose proof (scan_quotes_bound s initial) as H.
  change (countState DQ initial) with 0 in H. lia.
Qed.

(** C2: at a double quote the loop body either takes the escaped-quote
    branch (inside a quoted field, next character a double quote: one
    quote is appended to the cell and the position advances by two) or
    toggles the flag and advances by one; an iteration writes a quote to
    the cells exactly when it takes the escaped-quote branch, so every
    quote of the result comes from a pair of quotes of the input; and the
    scenario with escaped quotes parses to the cell with single quotes. *)
Theorem quote_rule (csvString : list N) (st : pstate)
  (Hquote : csvString !! i st = Some DQ) :
  body csvString st =
    (if insideQuotes st && is_char (csvString !! (i st + 1)) DQ
     then {| rows := rows st; currentRow := currentRow st;
             currentCell := currentCell st ++ [DQ];
             insideQuotes := insideQuotes st; i := i st + 2 |}
     else {| rows := rows st; currentRow := currentRow st;
             currentCell := currentCell st;
             insideQuotes := negb (insideQuotes st); i := i st + 1 |})
  ∧ (∀ s' st',
       countState DQ (body s' st')
       = countState DQ st' + (if atEscapedQuote s' st' then 1 else 0))
  ∧ (∀ st', countTable DQ (finish st') = countState DQ st')
  ∧ (∀ s', 2 * countTable DQ (parseCSV s') ≤ countChar DQ s')
  ∧ parseCSV (str "Name,Quote" ++ LF :: DQ :: str "John" ++ DQ :: COMMA :: DQ ::
              str "He said " ++ DQ :: DQ :: str "Hello" ++ DQ :: DQ ::
              str " to me" ++ [DQ])
    = [[str "Name"; str "Quote"];
       [str "John"; str "He said " ++ DQ :: str "Hello" ++ DQ :: str " to me"]].
Proof.
  split.
  { unfold body. by rewrite Hquote. }
  split; [apply countState_body |].
  split; [by intros; apply countTable_finish |].
  split; [apply parseCSV_quotes_bound |].
  vm_compute. reflexivity.
Qed.

Lemma quote_rule_witness :
  [DQ; DQ; DQ] !! i (PState [] [] [] true 0) = Some DQ
  ∧ body [DQ; DQ; DQ] (PState [] [] [] true 0) = PState [] [] [DQ] true 2
  ∧ body [DQ; DQ; DQ] (PState [] [] [DQ] true 2) = PState [] [] [DQ] false 3.
Proof.
  split; [reflexivity |]. split.
  - apply (quote_rule [DQ; DQ; DQ] (PState [] [] [] true 0)). reflexivity.
  - reflexivity.
Defined.

(** ** Line ends *)

(** The finalization closes the last cell and row whatever the buffers
    hold: when both are empty the row it would push is dropped. *)
Lemma finish_closes st :
  finish st = pushRow (rows st) (currentRow st ++ [trim (currentCell st)]).
Proof.
  unfold finish. case_match eqn:Hlen; [done |].
  apply orb_false_elim in Hlen as [Hcell Hrow].
  by destruct (currentCell st), (currentRow st).
Qed.

Lemma finish_forget st : finish (forget st) = finish st.
Proof. done. Qed.

Lemma scan_forget s : ∀ st, forget (scan s (forget st)) = forget (scan s st).
Proof.
  induction s as [| c | c d s IH1 IH2] using two_step_ind; intros st.
  - done.
  - rewrite !scan_one. simpl insideQuotes. by repeat case_match.
  - rewrite !scan_two. simpl insideQuotes.
    repeat case_match;
      match goal with
      | |- forget (scan ?t ?st1) = forget (scan ?t ?st2) =>
          first [ unify t s; rewrite <- (IH1 st1), <- (IH1 st2)
                | rewrite <- (IH2 st1), <- (IH2 st2) ]
      end; done.
Qed.

(** What follows a position does not depend on the position itself. *)
Lemma scan_same_vars s st1 st2 :
  forget st1 = forget st2 → finish (scan s st1) = finish (scan s st2).
Proof.
  intros H. rewrite <- (finish_forget (scan s st1)), <- (finish_forget (scan s st2)).
  by rewrite <- (scan_forget s st1), <- (scan_forget s st2), H.
Qed.

(** A character that is no quote and no carriage return is handled
    without a look at the next one. *)
Lemma scan_cons_simple c rest st :
  c ≠ DQ → c ≠ CR →
  scan (c :: rest) st =
  scan rest (if (c =? COMMA)%N && negb (insideQuotes st) then endCell st
             else if (c =? LF)%N && negb (insideQuotes st) then endRow 1 st
             else appendChar c st).
Proof.
  intros Hq Hr. simpl.
  destruct (N.eqb_spec c DQ); [done |]. destruct (N.eqb_spec c CR); [done |].
  simpl. by repeat case_match.
Qed.

(** The scan of the text before a line feed does not depend on what
    follows the line feed. *)
Lemma scan_lf_split p : ∀ rest st,
  scan (p ++ LF :: rest) st = scan rest (scan (p ++ [LF]) st).
Proof.
  assert (∀ rest st, scan (LF :: rest) st = scan rest (scan [LF] st)) as Hbase.
  { intros rest st. by rewrite !scan_cons_simple. }
  induction p as [| c | c d s IH1 IH2] using two_step_ind; intros rest st.
  - apply Hbase.
  - change ([c] ++ LF :: rest) with (c :: LF :: rest).
    change ([c] ++ [LF]) with [c; LF]. rewrite !scan_two.
    repeat case_match; done || apply Hbase.
  - change ((c :: d :: s) ++ LF :: rest) with (c :: d :: (s ++ LF :: rest)).
    change ((c :: d :: s) ++ [LF]) with (c :: d :: (s ++ [LF])).
    rewrite !scan_two. repeat case_match; apply IH1 || apply (IH2 rest).
Qed.

(** The flag after a scan is the parity of the quotes that were read. *)
Lemma scan_insideQuotes s : ∀ st,
  insideQuotes (scan s st) = xorb (insideQuotes st) (Nat.odd (countChar DQ s)).
Proof.
  induction s as [| c | c d s IH1 IH2] using two_step_ind; intros st.
  - simpl. by destruct (insideQuotes st).
  - rewrite scan_one. simpl countChar.
    destruct (c =? DQ)%N; simpl; [by destruct (insideQuotes st) |].
    repeat case_match; simpl; by destruct (insideQuotes st).
  - rewrite scan_two.
    change (countChar DQ (c :: d :: s))
      with ((if (c =? DQ)%N then 1 else 0) + countChar DQ (d :: s)).
    destruct (c =? DQ)%N eqn:Hc.
    + destruct (insideQuotes st && (d =? DQ)%N) eqn:Hesc.
      * apply andb_prop in Hesc as [_ Hd]. rewrite IH1. simpl. by rewrite Hd.
      * rewrite IH2. simpl insideQuotes.
        replace (1 + countChar DQ (d :: s)) with (S (countChar DQ (d :: s))) by lia.
        rewrite Nat.odd_succ, <- Nat.negb_odd.
        by destruct (insideQuotes st), (Nat.odd (countChar DQ (d :: s))).
    + rewrite Nat.add_0_l.
      repeat case_match; rewrite ?IH1, ?IH2; simpl insideQuotes; try done.
      match goal with H : (d =? LF)%N = true |- _ =>
        apply N.eqb_eq in H; subst d end.
      done.
Qed.

(** After a line feed outside quotes the parser is at the start of a row. *)
Lemma scan_lf_row_start p : ∀ st,
  insideQuotes (scan (p ++ [LF]) st) = false →
  currentRow (scan (p ++ [LF]) st) = []
  ∧ currentCell (scan (p ++ [LF]) st) = [].
Proof.
  assert (∀ st, insideQuotes (scan [LF] st) = false →
            currentRow (scan [LF] st) = [] ∧ currentCell (scan [LF] st) = [])
    as Hbase.
  { intros st. rewrite scan_one. simpl.
    destruct (insideQuotes st) eqn:Hin; simpl; [by rewrite Hin | done]. }
  induction p as [| c | c d s IH1 IH2] using two_step_ind; intros st.
  - apply Hbase.
  - change ([c] ++ [LF]) with [c; LF]. rewrite scan_two.
    repeat case_match; try apply Hbase; try done.
    match goal with H : _ && (LF =? DQ)%N = true |- _ =>
      by rewrite andb_false_r in H end.
  - change ((c :: d :: s) ++ [LF]) with (c :: d :: (s ++ [LF])).
    rewrite scan_two. repeat case_match; apply IH1 || apply IH2.
Qed.

Lemma finish_endRow n st : finish (endRow n st) = finish st.
Proof. by rewrite !finish_closes. Qed.

Lemma finish_appendChar_ws c st :
  isWhiteSpace c = true → finish (appendChar c st) = finish st.
Proof.
  intros Hc. rewrite !finish_closes. simpl.
  rewrite trim_app_ws; [done |]. simpl. by rewrite Hc.
Qed.

(** A line terminator at the very end of the input changes nothing. *)
Lemma finish_scan_terminator t :
  t = LF ∨ t = CR →
  ∀ s st, finish (scan (s ++ [t]) st) = finish (scan s st).
Proof.
  intros Ht.
  assert (∀ st, finish (scan [t] st) = finish st) as Hbase.
  { intros st. rewrite scan_one.
    destruct Ht as [-> | ->]; simpl; destruct (insideQuotes st); simpl;
      by rewrite ?finish_endRow, ?finish_appendChar_ws. }
  assert ((t =? DQ)%N = false) as Hq by (by destruct Ht as [-> | ->]).
  induction s as [| c | c d s IH1 IH2] using two_step_ind; intros st.
  - apply Hbase.
  - change ([c] ++ [t]) with [c; t]. rewrite scan_two, (scan_one c), Hq, andb_false_r.
    repeat case_match; rewrite ?Hbase; try done.
  - change ((c :: d :: s) ++ [t]) with (c :: d :: (s ++ [t])).
    rewrite !scan_two. repeat case_match; apply IH1 || apply IH2.
Qed.

Lemma parseCSV_terminator t s :
  t = LF ∨ t = CR → parseCSV (s ++ [t]) = parseCSV s.
Proof. intros Ht. rewrite !parseCSV_scan. by apply finish_scan_terminator. Qed.

(** *** Blank lines *)

Lemma blank_row_dropped rs r cell :
  someNonEmpty r = false → allWhiteSpace cell = true →
  pushRow rs (r ++ [trim cell]) = rs.
Proof.
  intros Hr Hcell. unfold pushRow.
  by rewrite someNonEmpty_app, Hr, trim_allWhiteSpace.
Qed.

Lemma inBlankRow_endCell st :
  inBlankRow st → inBlankRow (endCell st) ∧ rows (endCell st) = rows st.
Proof.
  intros (Hin & Hrow & Hcell). split; [| done]. split; [done |]. simpl.
  by rewrite someNonEmpty_app, Hrow, trim_allWhiteSpace.
Qed.

Lemma inBlankRow_endRow n st :
  inBlankRow st → inBlankRow (endRow n st) ∧ rows (endRow n st) = rows st.
Proof.
  intros (Hin & Hrow & Hcell). split; [done |]. simpl. by apply blank_row_dropped.
Qed.

Lemma inBlankRow_appendChar c st :
  isWhiteSpace c = true → inBlankRow st →
  inBlankRow (appendChar c st) ∧ rows (appendChar c st) = rows st.
Proof.
  intros Hc (Hin & Hrow & Hcell). split; [| done]. split; [done |].
  split; [done |]. simpl. rewrite allWhiteSpace_app, Hcell. simpl. by rewrite Hc.
Qed.

(** A blank line and its line feed bring the parser back to the start of
    a row, with the rows it had. *)
Lemma scan_blank_line l : ∀ st,
  blankLine l → inBlankRow st →
  forget (scan (l ++ [LF]) st) = PState (rows st) [] [] false 0.
Proof.
  assert (∀ st, inBlankRow st →
            forget (scan [LF] st) = PState (rows st) [] [] false 0) as Hbase.
  { intros st Hst. rewrite scan_one. simpl.
    destruct Hst as (Hin & Hrow & Hcell). rewrite Hin. simpl.
    unfold forget. simpl. by rewrite blank_row_dropped, Hin. }
  assert (∀ n st, inBlankRow st →
            forget (endRow n st) = PState (rows st) [] [] false 0) as Hend.
  { intros n st Hst. destruct (inBlankRow_endRow n st Hst) as [(Hin & _) Hrows].
    unfold forget. rewrite Hrows, Hin. done. }
  assert (∀ c, c = COMMA ∨ isWhiteSpace c = true → (c =? DQ)%N = false) as Hnq.
  { intros c [-> | Hc]; [done |]. by destruct (N.eqb_spec c DQ) as [-> |]. }
  assert (∀ c, c = COMMA ∨ isWhiteSpace c = true → (c =? COMMA)%N = false →
            isWhiteSpace c = true) as Hws.
  { intros c [-> | Hc]; done. }
  induction l as [| c | c d s IH1 IH2] using two_step_ind; intros st Hl Hst.
  - by apply Hbase.
  - change ([c] ++ [LF]) with [c; LF]. rewrite scan_two.
    apply Forall_inv in Hl.
    pose proof Hst as (Hin & _). rewrite Hin, (Hnq c Hl).
    cbn [negb]. rewrite !andb_true_r.
    destruct (c =? COMMA)%N eqn:Hcomma.
    { destruct (inBlankRow_endCell st Hst) as [Hst' <-]. by apply Hbase. }
    destruct (c =? LF)%N.
    { destruct (inBlankRow_endRow 1 st Hst) as [Hst' Hrows].
      rewrite <- Hrows. by apply Hbase. }
    destruct (c =? CR)%N; [by apply Hend |].
    destruct (inBlankRow_appendChar c st (Hws c Hl Hcomma) Hst) as [Hst' <-].
    by apply Hbase.
  - change ((c :: d :: s) ++ [LF]) with (c :: d :: (s ++ [LF])). rewrite scan_two.
    pose proof (Forall_inv Hl) as Hc. apply Forall_inv_tail in Hl.
    pose proof (Forall_inv_tail Hl) as Hs.
    pose proof Hst as (Hin & _). rewrite Hin, (Hnq c Hc).
    cbn [negb]. rewrite !andb_true_r.
    destruct (c =? COMMA)%N eqn:Hcomma.
    { destruct (inBlankRow_endCell st Hst) as [Hst' <-]. by apply IH2. }
    destruct (c =? LF)%N.
    { destruct (inBlankRow_endRow 1 st Hst) as [Hst' Hrows].
      rewrite <- Hrows. by apply IH2. }
    destruct (c =? CR)%N.
    { destruct (d =? LF)%N.
      - destruct (inBlankRow_endRow 2 st Hst) as [Hst' Hrows].
        rewrite <- Hrows. by apply IH1.
      - destruct (inBlankRow_endRow 1 st Hst) as [Hst' Hrows].
        rewrite <- Hrows. by apply IH2. }
    destruct (inBlankRow_appendChar c st (Hws c Hc Hcomma) Hst) as [Hst' <-].
    by apply IH2.
Qed.

(** After a line feed that follows an even number of quotes, the parser is
    at the start of a row. *)
Lemma scan_line_start p :
  Nat.even (countChar DQ p) = true →
  forget (scan (p ++ [LF]) initial)
  = PState (rows (scan (p ++ [LF]) initial)) [] [] false 0.
Proof.
  intros Hp.
  assert (insideQuotes (scan (p ++ [LF]) initial) = false) as Hin.
  { rewrite scan_insideQuotes, countChar_app. simpl.
    by rewrite Nat.add_0_r, <- Nat.negb_even, Hp. }
  destruct (scan_lf_row_start p initial Hin) as [Hrow Hcell].
  unfold forget. by rewrite Hin, Hrow, Hcell.
Qed.

Lemma scan_blank_line_after p l :
  Nat.even (countChar DQ p) = true → blankLine l →
  forget (scan (l ++ [LF]) (scan (p ++ [LF]) initial))
  = forget (scan (p ++ [LF]) initial).
Proof.
  intros Hp Hl. rewrite <- scan_forget, (scan_line_start p Hp).
  rewrite scan_blank_line; done.
Qed.

Lemma blank_line_inside p l q :
  Nat.even (countChar DQ p) = true → blankLine l →
  parseCSV (p ++ LF :: l ++ LF :: q) = parseCSV (p ++ LF :: q).
Proof.
  intros Hp Hl. rewrite !parseCSV_scan.
  rewrite (scan_lf_split p), (scan_lf_split l), (scan_lf_split p q).
  apply scan_same_vars. by apply scan_blank_line_after.
Qed.

Lemma blank_line_last p l :
  Nat.even (countChar DQ p) = true → blankLine l →
  parseCSV (p ++ LF :: l) = parseCSV (p ++ [LF]).
Proof.
  intros Hp Hl. rewrite !parseCSV_scan. rewrite (scan_lf_split p).
  rewrite <- (finish_scan_terminator LF) by auto.
  rewrite <- finish_forget, scan_blank_line_after by done.
  apply finish_forget.
Qed.

Lemma blank_line_first l q :
  blankLine l → parseCSV (l ++ LF :: q) = parseCSV q.
Proof.
  intros Hl. rewrite !parseCSV_scan, (scan_lf_split l).
  apply scan_same_vars. by rewrite scan_blank_line.
Qed.

Lemma blank_line_alone l : blankLine l → parseCSV l = [].
Proof.
  intros Hl. rewrite parseCSV_scan, <- (finish_scan_terminator LF) by auto.
  by rewrite <- finish_forget, scan_blank_line.
Qed.

Lemma rows_body csvString st :
  rows (body csvString st) = rows st
  ∨ (rows (body csvString st) = rows st ++ [currentRow st ++ [trim (currentCell st)]]
     ∧ someNonEmpty (currentRow st ++ [trim (currentCell st)]) = true).
Proof.
  unfold body. repeat case_match; simpl; try (by left);
    unfold pushRow; case_match; auto.
Qed.

Lemma rows_finish st :
  finish st = rows st
  ∨ (finish st = rows st ++ [currentRow st ++ [trim (currentCell st)]]
     ∧ someNonEmpty (currentRow st ++ [trim (currentCell st)]) = true).
Proof. rewrite finish_closes. unfold pushRow. case_match; auto. Qed.

Lemma parseCSV_rows_have_content s :
  Forall (fun r => ∃ cell, cell ∈ r ∧ trim cell ≠ []) (parseCSV s).
Proof.
  pose proof (parseCSV_rows_kept s) as Hkept.
  pose proof (parseCSV_trimmed s) as Htrim.
  rewrite Forall_forall in *. intros r Hr.
  destruct (proj1 (someNonEmpty_true r) (Hkept r Hr)) as (cell & Hin & Hne).
  exists cell. split; [done |].
  specialize (Htrim r Hr). rewrite Forall_forall in Htrim.
  by rewrite (Htrim cell Hin).
Qed.

(** C3: a row is appended to the result only when one of its cells is not
    empty after trimming, in the loop and in the finalization; every row
    of the result has such a cell; and a line of commas and white space
    leaves no row in the parser's output and no line in the formatted
    output, whether it stands between two lines, at the end, at the start
    or alone ([p] is the text before the line, with its quotes closed). *)
Theorem blank_rows_are_dropped (p l q : list N)
  (Hl : blankLine l) (Hp : Nat.even (countChar DQ p) = true) :
  (∀ csvString st,
     rows (body csvString st) = rows st
     ∨ (rows (body csvString st)
        = rows st ++ [currentRow st ++ [trim (currentCell st)]]
        ∧ someNonEmpty (currentRow st ++ [trim (currentCell st)]) = true))
  ∧ (∀ st,
     finish st = rows st
     ∨ (finish st = rows st ++ [currentRow st ++ [trim (currentCell st)]]
        ∧ someNonEmpty (currentRow st ++ [trim (currentCell st)]) = true))
  ∧ (∀ csvString,
     Forall (fun r => ∃ cell, cell ∈ r ∧ trim cell ≠ []) (parseCSV csvString))
  ∧ parseCSV (p ++ LF :: l ++ LF :: q) = parseCSV (p ++ LF :: q)
  ∧ csvToMarkdown (p ++ LF :: l ++ LF :: q) = csvToMarkdown (p ++ LF :: q)
  ∧ parseCSV (p ++ LF :: l) = parseCSV p
  ∧ csvToMarkdown (p ++ LF :: l) = csvToMarkdown p
  ∧ parseCSV (l ++ LF :: q) = parseCSV q
  ∧ csvToMarkdown (l ++ LF :: q) = csvToMarkdown q
  ∧ parseCSV l = []
  ∧ csvToMarkdown l = [].
Proof.
  assert (parseCSV (p ++ LF :: l) = parseCSV p) as Hlast.
  { rewrite blank_line_last by done. apply parseCSV_terminator. by left. }
  unfold csvToMarkdown.
  rewrite (blank_line_inside p l q), Hlast, (blank_line_first l q),
    (blank_line_alone l) by done.
  repeat split; auto using rows_body, rows_finish, parseCSV_rows_have_content.
Qed.

Lemma blank_rows_are_dropped_witness :
  blankLine (str " , ,")
  ∧ Nat.even (countChar DQ (str "a,b")) = true
  ∧ parseCSV (str "a,b" ++ LF :: str " , ," ++ LF :: str "c,d")
    = parseCSV (str "a,b" ++ LF :: str "c,d").
Proof.
  assert (blankLine (str " , ,")) as Hl.
  { repeat (constructor; [first [by left | by right] |]). constructor. }
  split; [exact Hl |]. split; [reflexivity |].
  apply (blank_rows_are_dropped (str "a,b") (str " , ,") (str "c,d") Hl).
  reflexivity.
Defined.

(** C4: the trailing row is not lost. After the scan (which has consumed
    the whole input) the finalization closes the last cell and pushes the
    last row under the rule of the other rows when a buffer is not empty,
    and pushes nothing when both are empty; so an input parses to the same
    table with and without a final line terminator. *)
Theorem trailing_row_kept (csvString : list N) :
  i (loop (length csvString) csvString initial) = length csvString
  ∧ parseCSV csvString =
    (let st := loop (length csvString) csvString initial in
     if (0 <? length (currentCell st)) || (0 <? length (currentRow st))
     then
       if someNonEmpty (currentRow st ++ [trim (currentCell st)])
       then rows st ++ [currentRow st ++ [trim (currentCell st)]]
       else rows st
     else rows st)
  ∧ parseCSV (csvString ++ [LF]) = parseCSV csvString
  ∧ parseCSV (csvString ++ [CR]) = parseCSV csvString
  ∧ parseCSV (csvString ++ [CR; LF]) = parseCSV csvString
  ∧ parseCSV (str "a,b" ++ LF :: str "c,d")
    = [[str "a"; str "b"]; [str "c"; str "d"]].
Proof.
  split; [apply loop_exits |].
  split; [done |].
  split; [apply parseCSV_terminator; by left |].
  split; [apply parseCSV_terminator; by right |].
  split; [| vm_compute; reflexivity].
  change [CR; LF] with ([CR] ++ [LF]). rewrite app_assoc.
  rewrite parseCSV_terminator by (by left). apply parseCSV_terminator. by right.
Qed.

(** ** The output of a table with a row *)

Lemma convertToMarkdownTable_head r rs :
  ∃ t, convertToMarkdownTable (r :: rs) = PIPE :: t.
Proof.
  unfold convertToMarkdownTable, markdownRows, normalizedRows.
  rewrite fmap_cons. cbn [join]. unfold formatRow. simpl. eauto.
Qed.

Lemma convertToMarkdownTable_not_blank rs :
  rs ≠ [] → trim (convertToMarkdownTable rs) ≠ [].
Proof.
  destruct rs as [|r rs]; [done |]. intros _.
  destruct (convertToMarkdownTable_head r rs) as [t ->].
  apply (trim_nonblank _ PIPE); [by left | done].
Qed.

(** ** Inputs that parse to a row *)

Lemma pushRow_nonempty rs r : rs ≠ [] → pushRow rs r ≠ [].
Proof.
  unfold pushRow. case_match; [| done]. intros _. by destruct rs.
Qed.

Lemma pushRow_content rs r : someNonEmpty r = true → pushRow rs r ≠ [].
Proof. unfold pushRow. intros ->. by destruct rs. Qed.

Lemma someNonEmpty_close r cell :
  someNonEmpty r = true ∨ allWhiteSpace cell = false →
  someNonEmpty (r ++ [trim cell]) = true.
Proof.
  rewrite someNonEmpty_app. intros [-> | Hcell]; [done |].
  apply orb_true_intro. right. simpl.
  destruct (trim cell) eqn:Ht; [| done].
  apply trim_blank_iff in Ht. congruence.
Qed.

Lemma live_finish st : live st → finish st ≠ [].
Proof.
  rewrite finish_closes. intros [Hrows | Hrest].
  - by apply pushRow_nonempty.
  - by apply pushRow_content, someNonEmpty_close.
Qed.

Lemma live_scan s st : live st → live (scan s st).
Proof.
  apply scan_preserves; clear; unfold live; simpl.
  - intros st _. right. right. rewrite allWhiteSpace_app. simpl.
    apply andb_false_r.
  - done.
  - intros st [? | Hrest]; [by left |]. right. left.
    by apply someNonEmpty_close.
  - intros _ st [? | Hrest]; left.
    + by apply pushRow_nonempty.
    + by apply pushRow_content, someNonEmpty_close.
  - intros c st [? | [? | Hcell]]; [by left | by right; left |].
    right. right. by rewrite allWhiteSpace_app, Hcell.
Qed.

Lemma live_appendChar_content c st : content c → live (appendChar c st).
Proof.
  intros (Hws & _). right. right. simpl.
  rewrite allWhiteSpace_app. simpl. rewrite Hws. apply andb_false_r.
Qed.

Lemma content_eqb c :
  content c →
  (c =? DQ)%N = false ∧ (c =? COMMA)%N = false
  ∧ (c =? LF)%N = false ∧ (c =? CR)%N = false.
Proof.
  intros (Hws & Hcomma & Hq).
  repeat split; apply N.eqb_neq; try done; by intros ->.
Qed.

(** A character that is neither white space, nor a comma, nor a quote ends
    up in a cell of a row. *)
Lemma scan_content s : ∀ st, Exists content s → live (scan s st).
Proof.
  induction s as [| c | c d s IH1 IH2] using two_step_ind; intros st Hs.
  - by apply Exists_nil in Hs.
  - apply Exists_cons in Hs as [Hc | Hs]; [| by apply Exists_nil in Hs].
    rewrite scan_one. destruct (content_eqb c Hc) as (-> & -> & -> & ->).
    simpl. by apply live_appendChar_content.
  - rewrite scan_two. apply Exists_cons in Hs as [Hc | Hs].
    { destruct (content_eqb c Hc) as (-> & -> & -> & ->). cbn [andb].
      by apply live_scan, live_appendChar_content. }
    assert (∀ st', ((d =? DQ)%N = true ∨ (d =? LF)%N = true) →
              live (scan s st')) as Hskip.
    { intros st' Hd. apply IH1. apply Exists_cons in Hs as [Hdc | Hs]; [| done].
      destruct (content_eqb d Hdc) as (Hq & _ & Hlf & _).
      destruct Hd; congruence. }
    repeat case_match; try (by apply IH2); apply Hskip.
    + left. match goal with H : _ && _ = true |- _ =>
        by apply andb_prop in H as [_ ?] end.
    + by right.
Qed.

Lemma parseCSV_content s : Exists content s → parseCSV s ≠ [].
Proof. intros Hs. rewrite parseCSV_scan. by apply live_finish, scan_content. Qed.

(** An input of white space only parses to no row. *)
Lemma parseCSV_blank s : allWhiteSpace s = true → parseCSV s = [].
Proof.
  intros Hs. apply blank_line_alone. unfold allWhiteSpace in Hs.
  rewrite forallb_forall in Hs. apply Forall_forall. intros c Hc.
  right. apply Hs. by apply list_elem_of_In.
Qed.

Lemma falsy_false s : s ≠ [] → falsy s = false.
Proof. by destruct s. Qed.

Lemma length_eqb_0_false (s : list N) : s ≠ [] → (length s =? 0) = false.
Proof. by destruct s. Qed.

(** C1, as amended: the entry point rejects an input that trims to the
    empty string; for any other input, the output is empty exactly when
    the parser returns no row, and then the entry point fails with the
    message of its output validation; when the parser returns a row, the
    output is set and does not trim to the empty string; and the parser
    returns a row whenever the input has a character that is neither
    white space, nor a comma, nor a double quote. *)
Theorem validated_output (csvinput : list N) :
  (trim csvinput = [] →
     convertCSVToMarkdown csvinput
     = SetFailed "CSV input is empty or contains only whitespace")
  ∧ (trim csvinput ≠ [] → parseCSV csvinput = [] →
     csvToMarkdown csvinput = []
     ∧ convertCSVToMarkdown csvinput
       = SetFailed "Failed to generate markdown table - output is empty")
  ∧ (parseCSV csvinput ≠ [] →
     trim csvinput ≠ []
     ∧ trim (csvToMarkdown csvinput) ≠ []
     ∧ convertCSVToMarkdown csvinput = SetOutput (csvToMarkdown csvinput))
  ∧ (Exists content csvinput → parseCSV csvinput ≠ []).
Proof.
  split; [| split; [| split]].
  - intros Ht. unfold convertCSVToMarkdown. rewrite Ht. simpl.
    by rewrite orb_true_r.
  - intros Ht Hp. unfold convertCSVToMarkdown, csvToMarkdown. rewrite Hp.
    split; [done |].
    assert (csvinput ≠ []) as Hne by (by intros ->).
    by rewrite (falsy_false csvinput), (falsy_false (trim csvinput)).
  - intros Hp.
    assert (trim csvinput ≠ []) as Ht.
    { intros Ht. apply Hp, parseCSV_blank. by apply trim_blank_iff. }
    assert (csvinput ≠ []) as Hne by (by intros ->).
    pose proof (convertToMarkdownTable_not_blank _ Hp) as Hout.
    fold (csvToMarkdown csvinput) in Hout.
    assert (csvToMarkdown csvinput ≠ []) as Hmd by (by intros Hmd; rewrite Hmd in Hout).
    split; [done |]. split; [done |].
    unfold convertCSVToMarkdown. by rewrite !falsy_false, length_eqb_0_false.
  - apply parseCSV_content.
Qed.

Lemma validated_output_witness :
  Exists content (str "Header")
  ∧ convertCSVToMarkdown (str "Header")
    = SetOutput (str "| Header |" ++ LF :: str "| ------ |").
Proof.
  assert (content 72%N) as Hc by (repeat split; done).
  assert (Exists content (str "Header")) as Hs by (by left).
  split; [exact Hs |].
  destruct (validated_output (str "Header")) as (_ & _ & Hrow & Hcontent).
  destruct (Hrow (Hcontent Hs)) as (_ & _ & ->). reflexivity.
Defined.

(** An input that passes the input validation and whose output is empty. *)
Lemma validated_input_empty_output :
  trim (str ",") ≠ []
  ∧ csvToMarkdown (str ",") = []
  ∧ convertCSVToMarkdown (str ",")
    = SetFailed "Failed to generate markdown table - output is empty".
Proof. split; [by vm_compute |]. split; reflexivity. Qed.

(** ** Columns *)

Lemma length_le_columnCount r rs : r ∈ rs → length r ≤ columnCount rs.
Proof. intros Hr. by apply max_list_elem_of_le, list_elem_of_fmap_2. Qed.

Lemma columnCount_attained rs :
  rs ≠ [] → ∃ r, r ∈ rs ∧ length r = columnCount rs.
Proof.
  intros Hrs.
  assert (length <$> rs ≠ []) as Hne by (by destruct rs).
  apply max_list_elem_of, list_elem_of_fmap in Hne as (r & Hlen & Hr).
  by exists r.
Qed.

Lemma length_normalizeRow n r : length r ≤ n → length (normalizeRow n r) = n.
Proof.
  intros Hr. unfold normalizeRow. rewrite length_app, length_replicate. lia.
Qed.

Lemma normalizedRows_length rs :
  Forall (fun r => length r = columnCount rs) (normalizedRows rs).
Proof.
  unfold normalizedRows. apply Forall_fmap, Forall_forall. intros r Hr. simpl.
  by apply length_normalizeRow, length_le_columnCount.
Qed.

Lemma normalizeRow_lookup n r j cell :
  r !! j = Some cell → normalizeRow n r !! j = Some cell.
Proof. apply lookup_app_l_Some. Qed.

Lemma cellLength_normalizeRow n r j :
  cellLength j (normalizeRow n r) = cellLength j r.
Proof.
  unfold cellLength, normalizeRow. destruct (r !! j) as [cell|] eqn:Hj.
  - by rewrite (lookup_app_l_Some _ _ _ _ Hj).
  - apply lookup_ge_None in Hj. rewrite lookup_app_r by done.
    destruct (replicate _ _ !! _) as [cell|] eqn:Hrep; [| done].
    by apply lookup_replicate in Hrep as [-> _].
Qed.

(** ** Column widths *)

Lemma length_forEachCell r : ∀ index ws,
  length (forEachCell r index ws) = length ws.
Proof.
  induction r as [|cell r IH]; intros index ws; simpl; [done |].
  by rewrite IH, length_insert.
Qed.

(** The pass over a row reads and writes [columnWidths] within its bounds
    when the row is not longer than [columnWidths]. *)
Lemma forEachCell_lookup r : ∀ index ws j,
  index + length r ≤ length ws →
  forEachCell r index ws !! j =
  if decide (index ≤ j < index + length r)
  then Some (Nat.max (default 0 (ws !! j)) (cellLength (j - index) r))
  else ws !! j.
Proof.
  induction r as [|cell r IH]; intros index ws j Hlen; simpl in *.
  - case_decide; [lia | done].
  - rewrite IH by (rewrite length_insert; lia).
    destruct (decide (j = index)) as [-> | Hne].
    + rewrite decide_False by lia. rewrite decide_True by lia.
      rewrite list_lookup_insert_eq by lia.
      unfold cellLength. by rewrite Nat.sub_diag.
    + rewrite list_lookup_insert_ne by done.
      destruct (decide (S index ≤ j < S index + length r)).
      * rewrite decide_True by lia. unfold cellLength.
        replace (j - index) with (S (j - S index)) by lia. done.
      * by rewrite decide_False by lia.
Qed.

Lemma forEachCell_full r ws j :
  length r = length ws → j < length ws →
  forEachCell r 0 ws !! j
  = Some (Nat.max (default 0 (ws !! j)) (cellLength j r)).
Proof.
  intros Hlen Hj. rewrite forEachCell_lookup by lia.
  rewrite decide_True by lia. by rewrite Nat.sub_0_r.
Qed.

Lemma length_measureRows rs : ∀ ws, length (measureRows rs ws) = length ws.
Proof.
  unfold measureRows. induction rs as [|r rs IH]; intros ws; simpl; [done |].
  by rewrite IH, length_forEachCell.
Qed.

Lemma measureRows_lookup rs : ∀ ws j,
  Forall (fun r => length r = length ws) rs → j < length ws →
  measureRows rs ws !! j
  = Some (Nat.max (default 0 (ws !! j)) (max_list (cellLength j <$> rs))).
Proof.
  unfold measureRows. induction rs as [|r rs IH]; intros ws j Hrs Hj.
  - cbn [foldl]. destruct (lookup_lt_is_Some_2 ws j Hj) as [w ->].
    simpl. f_equal. lia.
  - apply Forall_cons in Hrs as [Hr Hrs]. rewrite fmap_cons. cbn [foldl].
    rewrite IH; [| by rewrite length_forEachCell | by rewrite length_forEachCell].
    rewrite forEachCell_full by done.
    change (max_list (cellLength j r :: (cellLength j <$> rs)))
      with (Nat.max (cellLength j r) (max_list (cellLength j <$> rs))).
    cbn [from_option id]. f_equal. lia.
Qed.

Lemma length_columnWidths rs : length (columnWidths rs) = columnCount rs.
Proof.
  unfold columnWidths, clampWidths.
  by rewrite length_fmap, length_measureRows, length_replicate.
Qed.

(** The width of a column is the longest cell of the column among the
    normalized rows, and three when that is shorter. *)
Lemma columnWidths_lookup rs j :
  j < columnCount rs →
  columnWidths rs !! j
  = Some (Nat.max (max_list (cellLength j <$> normalizedRows rs)) 3).
Proof.
  intros Hj. unfold columnWidths, clampWidths. rewrite list_lookup_fmap.
  rewrite measureRows_lookup.
  - rewrite lookup_replicate_2 by done. done.
  - rewrite length_replicate. apply normalizedRows_length.
  - by rewrite length_replicate.
Qed.

Lemma columnWidths_min rs : Forall (fun w => 3 ≤ w) (columnWidths rs).
Proof.
  unfold columnWidths, clampWidths. apply Forall_fmap, Forall_forall.
  intros w _. simpl. lia.
Qed.

(** No cell is longer than the width of its column. *)
Lemma cell_fits rs r j cell w :
  r ∈ normalizedRows rs → r !! j = Some cell → columnWidths rs !! j = Some w →
  length cell ≤ w.
Proof.
  intros Hr Hcell Hw.
  assert (j < columnCount rs) as Hj.
  { rewrite <- length_columnWidths. by eapply lookup_lt_Some. }
  rewrite columnWidths_lookup in Hw by done. injection Hw as <-.
  assert (cellLength j r ≤ max_list (cellLength j <$> normalizedRows rs)) as Hle
    by (by apply max_list_elem_of_le, list_elem_of_fmap_2).
  unfold cellLength in Hle at 1. rewrite Hcell in Hle. simpl in Hle. lia.
Qed.

(** ** Lines *)

Lemma length_join sep parts :
  length (join sep parts)
  = sum_list_with length parts + length sep * (length parts - 1).
Proof.
  induction parts as [|part parts IH]; [simpl; lia |].
  destruct parts as [|part' parts]; [simpl; lia |].
  change (join sep (part :: part' :: parts))
    with (part ++ sep ++ join sep (part' :: parts)).
  rewrite !length_app, IH. simpl. lia.
Qed.

Lemma countChar_join c sep parts :
  countChar c (join sep parts)
  = sum_list_with (countChar c) parts + countChar c sep * (length parts - 1).
Proof.
  induction parts as [|part parts IH]; [simpl; lia |].
  destruct parts as [|part' parts]; [simpl; lia |].
  change (join sep (part :: part' :: parts))
    with (part ++ sep ++ join sep (part' :: parts)).
  rewrite !countChar_app, IH. simpl. lia.
Qed.

Lemma paddedCells_cons w ws cell r :
  paddedCells (w :: ws) (cell :: r) = padEnd cell w :: paddedCells ws r.
Proof. unfold paddedCells. by rewrite imap_cons. Qed.

Lemma length_paddedCells ws r : length (paddedCells ws r) = length r.
Proof. apply length_imap. Qed.

Lemma length_padEnd cell w : length cell ≤ w → length (padEnd cell w) = w.
Proof. intros Hw. unfold padEnd. rewrite length_app, length_replicate. lia. Qed.

Lemma countChar_padEnd c cell w :
  c ≠ SPACE → countChar c (padEnd cell w) = countChar c cell.
Proof.
  intros Hc. unfold padEnd.
  rewrite countChar_app, countChar_replicate_ne by done. lia.
Qed.

(** Padding changes no character but the space. *)
Lemma countChar_imap_padEnd c (width : nat → nat) r :
  c ≠ SPACE →
  sum_list_with (countChar c) (imap (fun index cell => padEnd cell (width index)) r)
  = countRow c r.
Proof.
  intros Hc. revert width. induction r as [|cell r IH]; intros width; [done |].
  rewrite imap_cons. unfold countRow. simpl.
  rewrite countChar_padEnd by done. f_equal. apply (IH (width ∘ S)).
Qed.

Lemma countChar_paddedCells c r ws :
  c ≠ SPACE → sum_list_with (countChar c) (paddedCells ws r) = countRow c r.
Proof.
  intros Hc. unfold paddedCells.
  by apply (countChar_imap_padEnd c (fun index => default 0 (ws !! index))).
Qed.

(** When the cells fit, each padded cell is as long as its column is wide. *)
Lemma length_paddedCells_fit r ws :
  Forall2 (fun cell w => length cell ≤ w) r ws →
  sum_list_with length (paddedCells ws r) = sum_list ws.
Proof.
  induction 1 as [|cell w r ws Hfit _ IH]; [done |].
  rewrite paddedCells_cons. simpl. by rewrite length_padEnd, IH.
Qed.

Lemma normalizedRow_fits rs r :
  r ∈ normalizedRows rs →
  Forall2 (fun cell w => length cell ≤ w) r (columnWidths rs).
Proof.
  intros Hr. apply Forall2_same_length_lookup_2.
  - rewrite length_columnWidths.
    pose proof (normalizedRows_length rs) as Hlen.
    rewrite Forall_forall in Hlen. by apply Hlen.
  - intros j cell w. by apply cell_fits.
Qed.

Lemma length_formatRow_fit r ws :
  Forall2 (fun cell w => length cell ≤ w) r ws →
  length (formatRow ws r) = 4 + sum_list ws + 3 * (length ws - 1).
Proof.
  intros Hfit. unfold formatRow.
  rewrite !length_app, length_join, length_paddedCells_fit by done.
  rewrite length_paddedCells, (Forall2_length _ _ _ Hfit). simpl. lia.
Qed.

Lemma length_separatorRow ws :
  length (separatorRow ws) = 4 + sum_list ws + 3 * (length ws - 1).
Proof.
  unfold separatorRow. rewrite !length_app, length_join, length_fmap.
  assert (sum_list_with length (repeat DASH <$> ws) = sum_list ws) as ->.
  { induction ws as [|w ws IH]; [done |]. rewrite fmap_cons. simpl.
    unfold repeat at 1. by rewrite length_replicate, IH. }
  simpl. lia.
Qed.

Lemma countChar_formatRow c ws r :
  c ≠ SPACE →
  countChar c (formatRow ws r)
  = countChar c (str "| ") + countRow c r
    + countChar c (str " | ") * (length r - 1) + countChar c (str " |").
Proof.
  intros Hc. unfold formatRow.
  rewrite !countChar_app, countChar_join, countChar_paddedCells by done.
  rewrite length_paddedCells. lia.
Qed.

Lemma countChar_separatorRow c ws :
  c ≠ DASH →
  countChar c (separatorRow ws)
  = countChar c (str "| ")
    + countChar c (str " | ") * (length ws - 1) + countChar c (str " |").
Proof.
  intros Hc. unfold separatorRow.
  rewrite !countChar_app, countChar_join, length_fmap.
  assert (sum_list_with (countChar c) (repeat DASH <$> ws) = 0) as ->.
  { induction ws as [|w ws IH]; [done |]. rewrite fmap_cons. simpl.
    unfold repeat at 1. by rewrite countChar_replicate_ne, IH. }
  lia.
Qed.

Lemma countRow_normalizeRow c n r : countRow c (normalizeRow n r) = countRow c r.
Proof.
  unfold normalizeRow. rewrite countRow_app.
  assert (countRow c (replicate (n - length r) []) = 0) as ->; [| lia].
  generalize (n - length r). intros k. by induction k.
Qed.

(** The lines of a table with a row: the header, the separator, and a line
    for each of the other rows. *)
Lemma markdownRows_cons r rest :
  markdownRows (r :: rest)
  = formatRow (columnWidths (r :: rest)) (normalizeRow (columnCount (r :: rest)) r)
    :: separatorRow (columnWidths (r :: rest))
    :: ((fun r' => formatRow (columnWidths (r :: rest))
                     (normalizeRow (columnCount (r :: rest)) r')) <$> rest).
Proof.
  unfold markdownRows, normalizedRows. rewrite fmap_cons.
  by rewrite <- list_fmap_compose.
Qed.

Lemma convertToMarkdownTable_join rs :
  convertToMarkdownTable rs = join [LF] (markdownRows rs).
Proof. by destruct rs. Qed.

Lemma length_markdownRows r rest :
  length (markdownRows (r :: rest)) = S (length (r :: rest)).
Proof. rewrite markdownRows_cons. simpl. by rewrite length_fmap. Qed.

Lemma Forall_markdownRows (P : list N → Prop) rs :
  (∀ r, r ∈ rs →
     P (formatRow (columnWidths rs) (normalizeRow (columnCount rs) r))) →
  P (separatorRow (columnWidths rs)) →
  Forall P (markdownRows rs).
Proof.
  intros Hrow Hsep. destruct rs as [|r rest]; [done |].
  rewrite markdownRows_cons.
  apply Forall_cons. split; [apply Hrow; by left |].
  apply Forall_cons. split; [done |].
  apply Forall_fmap, Forall_forall. intros r' Hr'. apply Hrow. by right.
Qed.

Lemma elem_of_normalizedRows r rs :
  r ∈ rs → normalizeRow (columnCount rs) r ∈ normalizedRows rs.
Proof. apply list_elem_of_fmap_2. Qed.

(** The lines of a table with a column all have the same length. *)
Lemma markdownRows_length rs :
  Forall (fun line =>
            length line
            = 4 + sum_list (columnWidths rs) + 3 * (columnCount rs - 1))
    (markdownRows rs).
Proof.
  apply Forall_markdownRows.
  - intros r Hr. rewrite length_formatRow_fit, length_columnWidths; [done |].
    by apply normalizedRow_fits, elem_of_normalizedRows.
  - by rewrite length_separatorRow, length_columnWidths.
Qed.

(** The pipes of a line are those of the frame and those of its cells. *)
Lemma markdownRows_pipes rs r :
  r ∈ rs →
  countChar PIPE (formatRow (columnWidths rs) (normalizeRow (columnCount rs) r))
  = 2 + (columnCount rs - 1) + countRow PIPE r.
Proof.
  intros Hr. rewrite countChar_formatRow by done.
  rewrite countRow_normalizeRow, length_normalizeRow
    by (by apply length_le_columnCount).
  change (countChar PIPE (str "| ")) with 1.
  change (countChar PIPE (str " | ")) with 1.
  change (countChar PIPE (str " |")) with 1. lia.
Qed.

Lemma separatorRow_pipes rs :
  countChar PIPE (separatorRow (columnWidths rs)) = 2 + (columnCount rs - 1).
Proof.
  rewrite countChar_separatorRow, length_columnWidths by done.
  change (countChar PIPE (str "| ")) with 1.
  change (countChar PIPE (str " | ")) with 1.
  change (countChar PIPE (str " |")) with 1. lia.
Qed.

Lemma countRow_le_countTable c r rs : r ∈ rs → countRow c r ≤ countTable c rs.
Proof. apply (sum_list_with_in r (countRow c)). Qed.

Lemma join_ends_with c sep parts :
  parts ≠ [] → Forall (fun part => ∃ t, part = t ++ [c]) parts →
  ∃ t, join sep parts = t ++ [c].
Proof.
  induction parts as [|part parts IH]; [done |]. intros _ Hparts.
  apply Forall_cons in Hparts as [[t ->] Hparts].
  destruct parts as [|part' parts]; [by exists t |].
  destruct IH as [t' Ht']; [done | done |].
  change (join sep ((t ++ [c]) :: part' :: parts))
    with ((t ++ [c]) ++ sep ++ join sep (part' :: parts)).
  rewrite Ht'. exists ((t ++ [c]) ++ sep ++ t'). by rewrite <- !app_assoc.
Qed.

Lemma formatRow_ends ws r : ∃ t, formatRow ws r = t ++ [PIPE].
Proof.
  exists (str "| " ++ join (str " | ") (paddedCells ws r) ++ [SPACE]).
  unfold formatRow. by rewrite <- !app_assoc.
Qed.

Lemma separatorRow_ends ws : ∃ t, separatorRow ws = t ++ [PIPE].
Proof.
  exists (str "| " ++ join (str " | ") (repeat DASH <$> ws) ++ [SPACE]).
  unfold separatorRow. by rewrite <- !app_assoc.
Qed.

Lemma convertToMarkdownTable_last r rest :
  last (convertToMarkdownTable (r :: rest)) = Some PIPE.
Proof.
  rewrite convertToMarkdownTable_join.
  destruct (join_ends_with PIPE [LF] (markdownRows (r :: rest))) as [t ->].
  - by rewrite markdownRows_cons.
  - apply Forall_markdownRows; auto using formatRow_ends, separatorRow_ends.
  - apply last_snoc.
Qed.

Lemma countChar_LF_formatRow ws n r :
  countChar LF (formatRow ws (normalizeRow n r)) = countRow LF r.
Proof.
  rewrite countChar_formatRow, countRow_normalizeRow by done.
  change (countChar LF (str "| ")) with 0.
  change (countChar LF (str " | ")) with 0.
  change (countChar LF (str " |")) with 0. lia.
Qed.

(** The line feeds of the output are those that join the lines and those
    inside the cells. *)
Lemma convertToMarkdownTable_line_feeds r rest :
  countChar LF (convertToMarkdownTable (r :: rest))
  = length (r :: rest) + countTable LF (r :: rest).
Proof.
  rewrite convertToMarkdownTable_join, countChar_join, length_markdownRows.
  rewrite markdownRows_cons. cbn [sum_list_with].
  rewrite countChar_LF_formatRow, countChar_separatorRow by done.
  change (countChar LF (str "| ")) with 0.
  change (countChar LF (str " | ")) with 0.
  change (countChar LF (str " |")) with 0.
  assert (∀ ws n,
            sum_list_with (countChar LF)
              ((fun r' => formatRow ws (normalizeRow n r')) <$> rest)
            = countTable LF rest) as ->.
  { intros ws n. induction rest as [|r' rest IH]; [done |].
    rewrite fmap_cons. cbn [sum_list_with].
    rewrite countChar_LF_formatRow, IH. done. }
  unfold countTable. simpl. lia.
Qed.

(** C6: the formatter returns the empty string exactly for the table with
    no row; for a table with a row the output is the header line, the
    separator line and one line for each other row, joined by one line
    feed each: one line more than the table has rows, the last character
    a pipe (no line feed at the end), and as many line feeds as the table
    has rows besides those that the cells contain themselves. *)
Theorem table_lines (r : list (list N)) (rest : list (list (list N))) :
  (∀ rs, convertToMarkdownTable rs = [] ↔ rs = [])
  ∧ convertToMarkdownTable (r :: rest) = join [LF] (markdownRows (r :: rest))
  ∧ markdownRows (r :: rest)
    = formatRow (columnWidths (r :: rest))
        (normalizeRow (columnCount (r :: rest)) r)
      :: separatorRow (columnWidths (r :: rest))
      :: ((fun r' => formatRow (columnWidths (r :: rest))
                       (normalizeRow (columnCount (r :: rest)) r')) <$> rest)
  ∧ length (markdownRows (r :: rest)) = length (r :: rest) + 1
  ∧ length (markdownRows [r]) = 2
  ∧ last (convertToMarkdownTable (r :: rest)) = Some PIPE
  ∧ countChar LF (convertToMarkdownTable (r :: rest))
    = length (r :: rest) + countTable LF (r :: rest)
  ∧ csvToMarkdown (str "Name,Age,City")
    = str "| Name | Age | City |" ++ LF :: str "| ---- | --- | ---- |".
Proof.
  split.
  { intros rs. split; [| by intros ->]. destruct rs as [|r' rs]; [done |].
    destruct (convertToMarkdownTable_head r' rs) as [t ->]. done. }
  split; [apply convertToMarkdownTable_join |].
  split; [apply markdownRows_cons |].
  split; [rewrite length_markdownRows; lia |].
  split; [apply length_markdownRows |].
  split; [apply convertToMarkdownTable_last |].
  split; [apply convertToMarkdownTable_line_feeds |].
  vm_compute. reflexivity.
Qed.

(** C7: the width of column [j] is the greatest length of the cell [j] of
    the normalized rows, and three when that is less; there are as many
    widths as columns, the number of columns being the greatest length of
    a row; every width, and so every run of dashes of the separator, is
    at least three; and the widths of the scenario are four and three. *)
Theorem column_widths (rs : list (list (list N))) (j : nat)
  (Hj : j < columnCount rs) :
  columnWidths rs !! j
    = Some (Nat.max (max_list (cellLength j <$> normalizedRows rs)) 3)
  ∧ max_list (cellLength j <$> normalizedRows rs)
    = max_list (cellLength j <$> rs)
  ∧ length (columnWidths rs) = columnCount rs
  ∧ (∀ r, r ∈ rs → length r ≤ columnCount rs)
  ∧ (∃ r, r ∈ rs ∧ length r = columnCount rs)
  ∧ Forall (fun w => 3 ≤ w) (columnWidths rs)
  ∧ separatorRow (columnWidths rs)
    = str "| " ++ join (str " | ") (repeat DASH <$> columnWidths rs) ++ str " |"
  ∧ Forall2 (fun run w => run = replicate w DASH ∧ 3 ≤ length run)
      (repeat DASH <$> columnWidths rs) (columnWidths rs)
  ∧ columnWidths (parseCSV (str "Name,Age" ++ LF :: str "John,25" ++ LF ::
                            str "Jane,30")) = [4; 3].
Proof.
  split; [by apply columnWidths_lookup |].
  split.
  { unfold normalizedRows. rewrite <- list_fmap_compose. f_equal.
    apply list_fmap_ext. intros _ r _. apply cellLength_normalizeRow. }
  split; [apply length_columnWidths |].
  split; [intros r; apply length_le_columnCount |].
  split.
  { apply columnCount_attained. intros ->. unfold columnCount in Hj.
    simpl in Hj. lia. }
  split; [apply columnWidths_min |].
  split; [done |].
  split; [| vm_compute; reflexivity].
  apply Forall2_fmap_l, Forall_Forall2_diag.
  eapply Forall_impl; [apply columnWidths_min |].
  intros w Hw. split; [done |]. unfold repeat. by rewrite length_replicate.
Qed.

Lemma column_widths_witness :
  0 < columnCount [[str "Name"; str "Age"]; [str "John"; str "25"]]
  ∧ columnWidths [[str "Name"; str "Age"]; [str "John"; str "25"]] !! 0
    = Some 4.
Proof.
  assert (0 < columnCount [[str "Name"; str "Age"]; [str "John"; str "25"]])
    as Hj by (vm_compute; lia).
  split; [exact Hj |].
  destruct (column_widths [[str "Name"; str "Age"]; [str "John"; str "25"]] 0 Hj)
    as [-> _].
  reflexivity.
Defined.

(** ** Tables with and without a column *)

(** A table that [parseCSV] returns has a column as soon as it has a row. *)
Lemma parseCSV_has_column s : parseCSV s ≠ [] → 0 < columnCount (parseCSV s).
Proof.
  intros Hne. pose proof (parseCSV_rows_nonempty s) as Hrows.
  destruct (parseCSV s) as [|r rs]; [done |].
  apply Forall_cons in Hrows as [Hr _].
  pose proof (length_le_columnCount r (r :: rs)) as Hle.
  specialize (Hle ltac:(by left)). lia.
Qed.

(** The lines of a table whose rows are all empty. *)
Lemma markdownRows_no_column rs :
  columnCount rs = 0 → Forall (fun line => line = str "|  |") (markdownRows rs).
Proof.
  intros Hcols.
  assert (columnWidths rs = []) as Hws.
  { apply length_zero_iff_nil. by rewrite length_columnWidths. }
  apply Forall_markdownRows; rewrite Hws; [| done].
  intros r Hr. apply length_le_columnCount in Hr. rewrite Hcols in *.
  destruct r; [done | simpl in Hr; lia].
Qed.

(** C8, as amended: the number of columns is the greatest length of a row,
    every normalized row has that many cells; in a table with a column,
    a header or data line has one pipe more than there are columns
    besides the pipes that the cells of its row contain, the separator
    has exactly one pipe more than there are columns, and so has every
    line when no cell contains a pipe; in a table with a row and no
    column every line has two pipes. *)
Theorem pipes_per_line (rs : list (list (list N))) :
  (∀ r, r ∈ rs → length r ≤ columnCount rs)
  ∧ (rs ≠ [] → ∃ r, r ∈ rs ∧ length r = columnCount rs)
  ∧ Forall (fun r => length r = columnCount rs) (normalizedRows rs)
  ∧ length (columnWidths rs) = columnCount rs
  ∧ (0 < columnCount rs →
     (∀ r, r ∈ rs →
        countChar PIPE
          (formatRow (columnWidths rs) (normalizeRow (columnCount rs) r))
        = columnCount rs + 1 + countRow PIPE r)
     ∧ countChar PIPE (separatorRow (columnWidths rs)) = columnCount rs + 1
     ∧ (countTable PIPE rs = 0 →
        Forall (fun line => countChar PIPE line = columnCount rs + 1)
          (markdownRows rs)))
  ∧ (columnCount rs = 0 →
     Forall (fun line => countChar PIPE line = 2) (markdownRows rs))
  ∧ (∀ csvString,
       parseCSV csvString ≠ [] → 0 < columnCount (parseCSV csvString)).
Proof.
  split; [intros r; apply length_le_columnCount |].
  split; [apply columnCount_attained |].
  split; [apply normalizedRows_length |].
  split; [apply length_columnWidths |].
  split; [| split; [| apply parseCSV_has_column]].
  - intros Hcols.
    assert (∀ r, r ∈ rs →
              countChar PIPE
                (formatRow (columnWidths rs) (normalizeRow (columnCount rs) r))
              = columnCount rs + 1 + countRow PIPE r) as Hrow.
    { intros r Hr. rewrite markdownRows_pipes by done. lia. }
    assert (countChar PIPE (separatorRow (columnWidths rs)) = columnCount rs + 1)
      as Hsep by (rewrite separatorRow_pipes; lia).
    split; [done |]. split; [done |].
    intros Hnone. apply Forall_markdownRows; [| done].
    intros r Hr. rewrite Hrow by done.
    pose proof (countRow_le_countTable PIPE r rs Hr). lia.
  - intros Hcols. eapply Forall_impl; [by apply markdownRows_no_column |].
    by intros line ->.
Qed.

Lemma pipes_per_line_witness :
  0 < columnCount [[str "Name"; str "Age"]; [str "John"; str "25"]]
  ∧ countChar PIPE (separatorRow (columnWidths [[str "Name"; str "Age"];
                                                [str "John"; str "25"]]))
    = 3.
Proof.
  assert (0 < columnCount [[str "Name"; str "Age"]; [str "John"; str "25"]])
    as Hcols by (vm_compute; lia).
  split; [exact Hcols |].
  destruct (pipes_per_line [[str "Name"; str "Age"]; [str "John"; str "25"]])
    as (_ & _ & _ & _ & Hpipes & _).
  destruct (Hpipes Hcols) as (_ & -> & _). reflexivity.
Defined.

(** A cell with a pipe gives its line more pipes than columns plus one; so
    does a table whose only row is empty. *)
Lemma pipe_in_cell_line :
  parseCSV (str "a|b") = [[str "a|b"]]
  ∧ columnCount (parseCSV (str "a|b")) = 1
  ∧ markdownRows (parseCSV (str "a|b")) = [str "| a|b |"; str "| --- |"]
  ∧ countChar PIPE (str "| a|b |") = 3
  ∧ ¬ Forall (fun line =>
                countChar PIPE line = columnCount (parseCSV (str "a|b")) + 1)
        (markdownRows (parseCSV (str "a|b")))
  ∧ ¬ Forall (fun line => countChar PIPE line = columnCount [[]] + 1)
        (markdownRows [[]]).
Proof.
  repeat split; try (vm_compute; reflexivity);
    intros H; apply Forall_inv in H; vm_compute in H; lia.
Qed.

(** C10: the returned string is its lines joined by line feeds; in a
    table with a column, every line is as long as the widths together,
    three times the number of columns, and one; no cell is longer than the
    width of its column, so that padding a cell makes it exactly that
    long, as long as the run of dashes of the column; and every table that
    [parseCSV] returns with a row has a column, so that all the lines of
    its output have that length. *)
Theorem lines_same_length (rs : list (list (list N))) :
  convertToMarkdownTable rs = join [LF] (markdownRows rs)
  ∧ (0 < columnCount rs →
     Forall (fun line =>
               length line
               = sum_list (columnWidths rs) + 3 * columnCount rs + 1)
       (markdownRows rs))
  ∧ (∀ r, r ∈ normalizedRows rs →
       Forall2 (fun cell w => length cell ≤ w ∧ length (padEnd cell w) = w)
         r (columnWidths rs))
  ∧ Forall2 (fun run w => length run = w)
      (repeat DASH <$> columnWidths rs) (columnWidths rs)
  ∧ (∀ csvString,
       parseCSV csvString ≠ [] →
       0 < columnCount (parseCSV csvString)
       ∧ Forall (fun line =>
                   length line
                   = sum_list (columnWidths (parseCSV csvString))
                     + 3 * columnCount (parseCSV csvString) + 1)
           (markdownRows (parseCSV csvString))).
Proof.
  assert (∀ t : list (list (list N)),
            0 < columnCount t →
            Forall (fun line =>
                      length line
                      = sum_list (columnWidths t) + 3 * columnCount t + 1)
              (markdownRows t)) as Hlines.
  { intros t Hcols. eapply Forall_impl; [apply markdownRows_length |].
    simpl. intros line ->. lia. }
  split; [apply convertToMarkdownTable_join |].
  split; [by apply Hlines |]. split; [| split].
  - intros r Hr. eapply Forall2_impl; [by apply normalizedRow_fits |].
    simpl. intros cell w Hfit. split; [done |]. by apply length_padEnd.
  - apply Forall2_fmap_l, Forall_Forall2_diag, Forall_forall.
    intros w _. apply length_replicate.
  - intros csvString Hne.
    pose proof (parseCSV_has_column csvString Hne) as Hcols.
    split; [done | by apply Hlines].
Qed.

Lemma lines_same_length_witness :
  parseCSV (str "Name,Age" ++ LF :: str "John,25") ≠ []
  ∧ Forall (fun line => length line = 14)
      (markdownRows (parseCSV (str "Name,Age" ++ LF :: str "John,25"))).
Proof.
  assert (parseCSV (str "Name,Age" ++ LF :: str "John,25") ≠ [])
    as Hne by (vm_compute; discriminate).
  split; [exact Hne |].
  destruct (lines_same_length []) as (_ & _ & _ & _ & Hparsed).
  destruct (Hparsed (str "Name,Age" ++ LF :: str "John,25") Hne) as [_ Hlen].
  exact Hlen.
Defined.

(** A row with no cell is what the hypothesis of a column excludes: the
    lines of the table whose only row is empty are the four characters of
    the empty frame.  [parseCSV] returns no such row. *)
Lemma no_column_line_length :
  markdownRows [[]] = [str "|  |"; str "|  |"]
  ∧ convertToMarkdownTable [[]] = str "|  |" ++ LF :: str "|  |"
  ∧ sum_list (columnWidths [[]]) + 3 * columnCount [[]] + 1 = 1
  ∧ (∀ csvString, [] ∉ parseCSV csvString).
Proof.
  repeat split; try (vm_compute; reflexivity).
  intros csvString Hin.
  pose proof (parseCSV_rows_nonempty csvString) as Hrows.
  rewrite Forall_forall in Hrows. apply Hrows in Hin. simpl in Hin. lia.
Qed.

(** ** Lines of plain cells *)

Lemma isPlain_plain v : isPlain v = true → plain v.
Proof.
  unfold isPlain, plain. rewrite forallb_forall. intros Hv.
  apply Forall_forall. intros c Hc%list_elem_of_In. specialize (Hv c Hc).
  apply negb_true_iff in Hv.
  repeat (apply orb_false_elim in Hv as [Hv ?]).
  repeat split; by apply N.eqb_neq.
Qed.

Lemma plain_eqb c :
  c ≠ COMMA ∧ c ≠ DQ ∧ c ≠ LF ∧ c ≠ CR →
  (c =? COMMA)%N = false ∧ (c =? LF)%N = false.
Proof. intros (? & _ & ? & _). split; by apply N.eqb_neq. Qed.

(** Outside quotes, the characters of a plain value go to the cell buffer. *)
Lemma scan_plain v : ∀ rest st,
  plain v → insideQuotes st = false →
  finish (scan (v ++ rest) st)
  = finish (scan rest
              (PState (rows st) (currentRow st) (currentCell st ++ v) false 0)).
Proof.
  induction v as [|c v IH]; intros rest st Hv Hin.
  - apply scan_same_vars. unfold forget. simpl. by rewrite app_nil_r, Hin.
  - apply Forall_cons in Hv as [Hc Hv].
    destruct (plain_eqb c Hc) as [Hcomma Hlf].
    destruct Hc as (_ & Hq & _ & Hcr).
    change ((c :: v) ++ rest) with (c :: (v ++ rest)).
    rewrite scan_cons_simple, Hcomma, Hlf by done. cbn [andb].
    rewrite IH by done. simpl. by rewrite <- app_assoc.
Qed.

Lemma join_cons sep part parts :
  parts ≠ [] → join sep (part :: parts) = part ++ sep ++ join sep parts.
Proof. by destruct parts. Qed.

(** A comma-separated line of plain cells, read from the start of a cell:
    every cell but the last is closed, the last is in the cell buffer. *)
Lemma scan_cells cells : ∀ x rest st,
  Forall plain cells → plain x →
  insideQuotes st = false → currentCell st = [] →
  finish (scan (csvLine (cells ++ [x]) ++ rest) st)
  = finish (scan rest
              (PState (rows st) (currentRow st ++ (trim <$> cells)) x false 0)).
Proof.
  unfold csvLine.
  induction cells as [|y cells IH]; intros x rest st Hcells Hx Hin Hcell.
  - simpl. rewrite scan_plain by done. by rewrite Hcell, app_nil_r.
  - apply Forall_cons in Hcells as [Hy Hcells].
    change ((y :: cells) ++ [x]) with (y :: (cells ++ [x])).
    rewrite join_cons by (by destruct cells).
    rewrite <- !app_assoc, scan_plain by done.
    change ([COMMA] ++ join [COMMA] (cells ++ [x]) ++ rest)
      with (COMMA :: (join [COMMA] (cells ++ [x]) ++ rest)).
    rewrite scan_cons_simple by done. simpl.
    rewrite IH by done. simpl. by rewrite Hcell, <- app_assoc.
Qed.

Lemma nonempty_snoc {A} (l : list A) : l ≠ [] → ∃ l' x, l = l' ++ [x].
Proof.
  intros Hl. destruct (exists_last Hl) as (l' & x & ->). eauto.
Qed.

(** A line of plain cells and its line feed, read from the start of a
    row. *)
Lemma scan_line cells rest rs n :
  cells ≠ [] → Forall plain cells →
  finish (scan (csvLine cells ++ LF :: rest) (PState rs [] [] false n))
  = finish (scan rest (PState (pushRow rs (trim <$> cells)) [] [] false 0)).
Proof.
  intros Hne Hcells. destruct (nonempty_snoc cells Hne) as (cs & x & ->).
  apply Forall_app in Hcells as [Hcs Hx%Forall_inv].
  rewrite scan_cells by done. rewrite scan_cons_simple by done. simpl.
  apply scan_same_vars. unfold forget. simpl.
  by rewrite fmap_app.
Qed.

Lemma scan_last_line cells rs n :
  cells ≠ [] → Forall plain cells →
  finish (scan (csvLine cells) (PState rs [] [] false n))
  = pushRow rs (trim <$> cells).
Proof.
  intros Hne Hcells. destruct (nonempty_snoc cells Hne) as (cs & x & ->).
  apply Forall_app in Hcells as [Hcs Hx%Forall_inv].
  rewrite <- (app_nil_r (csvLine (cs ++ [x]))), scan_cells by done.
  simpl. rewrite finish_closes. simpl. by rewrite fmap_app.
Qed.

(** A header line and a data line of plain cells parse to their trimmed
    cells, each row under the rule of the rows that are kept. *)
Lemma parseCSV_two_lines header data :
  header ≠ [] → data ≠ [] → Forall plain header → Forall plain data →
  parseCSV (csvLine header ++ LF :: csvLine data)
  = pushRow (pushRow [] (trim <$> header)) (trim <$> data).
Proof.
  intros Hh Hd Hheader Hdata. rewrite parseCSV_scan. unfold initial.
  rewrite scan_line by done. by rewrite scan_last_line.
Qed.

Lemma someNonEmpty_trimmed cells cell :
  cell ∈ cells → trim cell ≠ [] → someNonEmpty (trim <$> cells) = true.
Proof.
  intros Hin Hne. apply someNonEmpty_true. exists (trim cell).
  split; [by apply list_elem_of_fmap_2 | done].
Qed.

Lemma join_lookup sep parts : ∀ k part,
  parts !! k = Some part → ∃ before after, join sep parts = before ++ part ++ after.
Proof.
  induction parts as [|y parts IH]; intros k part Hk; [done |].
  destruct k as [|k]; simpl in Hk.
  - injection Hk as ->. destruct parts as [|y' parts].
    + exists [], []. simpl. by rewrite app_nil_r.
    + exists [], (sep ++ join sep (y' :: parts)). done.
  - destruct (IH k part Hk) as (before & after & Hjoin).
    rewrite join_cons by (by destruct parts). rewrite Hjoin.
    exists (y ++ sep ++ before), after. by rewrite <- !app_assoc.
Qed.

(** C9: a value [v] with no comma, no quote and no line terminator, whose
    trim is not empty, placed as a data cell (after the cells [pre],
    before the cells [post]) under a header line of plain cells one of
    which is not blank, comes back trimmed: the parser returns the header
    row and the data row with [trim v] at the place of [v]; the output is
    the header line, the separator and the data line; the cell of the
    data line at that place is [trim v] followed by spaces only; and
    [trim v] occurs in the output as it is. *)
Theorem cell_round_trip (header pre post : list (list N)) (v : list N)
  (Hheader : Forall plain header)
  (Hnonblank : ∃ h, h ∈ header ∧ trim h ≠ [])
  (Hpre : Forall plain pre) (Hpost : Forall plain post)
  (Hv : plain v) (Htrim : trim v ≠ []) :
  parseCSV (csvLine header ++ LF :: csvLine (pre ++ v :: post))
    = [trim <$> header; (trim <$> pre) ++ trim v :: (trim <$> post)]
  ∧ csvToMarkdown (csvLine header ++ LF :: csvLine (pre ++ v :: post))
    = join [LF]
        [formatRow
           (columnWidths [trim <$> header; trim <$> (pre ++ v :: post)])
           (normalizeRow
              (columnCount [trim <$> header; trim <$> (pre ++ v :: post)])
              (trim <$> header));
         separatorRow
           (columnWidths [trim <$> header; trim <$> (pre ++ v :: post)]);
         formatRow
           (columnWidths [trim <$> header; trim <$> (pre ++ v :: post)])
           (normalizeRow
              (columnCount [trim <$> header; trim <$> (pre ++ v :: post)])
              (trim <$> (pre ++ v :: post)))]
  ∧ (∃ w,
       columnWidths [trim <$> header; trim <$> (pre ++ v :: post)]
         !! length pre = Some w
       ∧ length (trim v) ≤ w
       ∧ paddedCells
           (columnWidths [trim <$> header; trim <$> (pre ++ v :: post)])
           (normalizeRow
              (columnCount [trim <$> header; trim <$> (pre ++ v :: post)])
              (trim <$> (pre ++ v :: post)))
         !! length pre
         = Some (trim v ++ replicate (w - length (trim v)) SPACE))
  ∧ ∃ before after,
      csvToMarkdown (csvLine header ++ LF :: csvLine (pre ++ v :: post))
      = before ++ trim v ++ after.
Proof.
  set (data := pre ++ v :: post).
  set (rs := [trim <$> header; trim <$> data]).
  destruct Hnonblank as (h & Hh & Hhtrim).
  assert (header ≠ []) as Hhne by (intros ->; by apply elem_of_nil in Hh).
  assert (data ≠ []) as Hdne by (unfold data; by destruct pre).
  assert (Forall plain data) as Hdata.
  { unfold data. apply Forall_app. split; [done |]. by apply Forall_cons. }
  assert (v ∈ data) as Hvin.
  { unfold data. apply elem_of_app. right. by left. }
  assert (parseCSV (csvLine header ++ LF :: csvLine data) = rs) as Hparse.
  { rewrite parseCSV_two_lines by done. unfold pushRow.
    rewrite (someNonEmpty_trimmed header h) by done. simpl.
    by rewrite (someNonEmpty_trimmed data v). }
  assert ((trim <$> data) !! length pre = Some (trim v)) as Hcell.
  { unfold data. rewrite fmap_app, fmap_cons.
    apply list_lookup_middle. by rewrite length_fmap. }
  assert (normalizeRow (columnCount rs) (trim <$> data) !! length pre
          = Some (trim v)) as Hnorm by (by apply normalizeRow_lookup).
  assert (normalizeRow (columnCount rs) (trim <$> data) ∈ normalizedRows rs)
    as Hrow.
  { apply elem_of_normalizedRows. unfold rs. right. by left. }
  assert (length pre < columnCount rs) as Hlt.
  { pose proof (normalizedRows_length rs) as Hlen.
    rewrite Forall_forall in Hlen. rewrite <- (Hlen _ Hrow).
    by eapply lookup_lt_Some. }
  destruct (lookup_lt_is_Some_2 (columnWidths rs) (length pre)) as [w Hw];
    [by rewrite length_columnWidths |].
  assert (paddedCells (columnWidths rs)
            (normalizeRow (columnCount rs) (trim <$> data)) !! length pre
          = Some (trim v ++ replicate (w - length (trim v)) SPACE)) as Hpad.
  { unfold paddedCells. by rewrite list_lookup_imap, Hnorm, Hw. }
  assert (csvToMarkdown (csvLine header ++ LF :: csvLine data)
          = join [LF]
              [formatRow (columnWidths rs)
                 (normalizeRow (columnCount rs) (trim <$> header));
               separatorRow (columnWidths rs);
               formatRow (columnWidths rs)
                 (normalizeRow (columnCount rs) (trim <$> data))]) as Hout.
  { unfold csvToMarkdown. rewrite Hparse, convertToMarkdownTable_join.
    unfold rs at 1. by rewrite markdownRows_cons. }
  split; [| split; [done |]; split].
  - rewrite Hparse. unfold rs, data. by rewrite fmap_app, fmap_cons.
  - exists w. split; [done |]. split; [| done].
    by apply (cell_fits rs _ (length pre) (trim v) w Hrow).
  - rewrite Hout.
    destruct (join_lookup (str " | ") _ _ _ Hpad) as (a & b & Hjoin).
    exists (formatRow (columnWidths rs)
              (normalizeRow (columnCount rs) (trim <$> header))
            ++ [LF] ++ separatorRow (columnWidths rs) ++ [LF] ++ str "| " ++ a),
      (replicate (w - length (trim v)) SPACE ++ b ++ str " |").
    cbn [join]. unfold formatRow at 2. rewrite Hjoin.
    by rewrite <- !app_assoc.
Qed.

Lemma cell_round_trip_witness :
  plain (str " New York ")
  ∧ trim (str " New York ") ≠ []
  ∧ parseCSV (csvLine [str "Name"; str "City"] ++ LF ::
              csvLine ([str "Jane"] ++ str " New York " :: []))
    = [[str "Name"; str "City"]; [str "Jane"; str "New York"]].
Proof.
  assert (plain (str " New York ")) as Hv by (by apply isPlain_plain).
  assert (trim (str " New York ") ≠ []) as Htrim by (by vm_compute).
  assert (Forall plain [str "Name"; str "City"]) as Hheader
    by (repeat (constructor; [by apply isPlain_plain |]); constructor).
  assert (∃ h, h ∈ [str "Name"; str "City"] ∧ trim h ≠ []) as Hnonblank
    by (exists (str "Name"); split; [by left | by vm_compute]).
  assert (Forall plain [str "Jane"]) as Hpre
    by (repeat (constructor; [by apply isPlain_plain |]); constructor).
  split; [exact Hv |]. split; [exact Htrim |].
  destruct (cell_round_trip [str "Name"; str "City"] [str "Jane"] []
              (str " New York ") Hheader Hnonblank Hpre (Forall_nil_2 _) Hv Htrim)
    as [-> _].
  reflexivity.
Defined.

(** * Further properties of the parser *)

(** ** The characters of the cells *)

Lemma countState_escapedQuote_other c st :
  c ≠ DQ → countState c (escapedQuote st) = countState c st.
Proof.
  intros Hc. unfold countState, escapedQuote. cbn [rows currentRow currentCell].
  rewrite countChar_app. cbn [countChar].
  destruct (N.eqb_spec DQ c); [congruence | lia].
Qed.

Lemma content_special c :
  content c →
  (DQ =? c)%N = false ∧ (COMMA =? c)%N = false
  ∧ (LF =? c)%N = false ∧ (CR =? c)%N = false.
Proof.
  intros (Hws & Hcomma & Hq).
  repeat split; apply N.eqb_neq; try done; by intros <-.
Qed.

(** A character that is neither white space, nor a comma, nor a quote
    goes from the input to the cells, once. *)
Lemma scan_content_count c s :
  content c → ∀ st, countState c (scan s st) = countState c st + countChar c s.
Proof.
  intros Hc. pose proof Hc as (Hws & Hcomma & Hq).
  destruct (content_special c Hc) as (Hdq & Hco & Hlf & Hcr).
  assert (∀ st, countState c (appendChar c st) = countState c st + 1) as Happ
    by (intros st; by rewrite countState_appendChar, N.eqb_refl).
  induction s as [| c0 | c0 d s IH1 IH2] using two_step_ind; intros st.
  - simpl. lia.
  - rewrite scan_one. cbn [countChar].
    destruct (N.eqb_spec c0 c) as [-> | Hne].
    + destruct (content_eqb c Hc) as (-> & -> & -> & ->). cbn [andb].
      rewrite Happ. lia.
    + repeat case_match;
        rewrite ?countState_toggleQuote, ?countState_endCell,
          ?countState_endRow, ?countState_appendChar by done;
        try lia.
      destruct (N.eqb_spec c0 c); [done | lia].
  - rewrite scan_two.
    change (countChar c (c0 :: d :: s))
      with ((if (c0 =? c)%N then 1 else 0) + countChar c (d :: s)).
    destruct (N.eqb_spec c0 c) as [-> | Hne].
    + destruct (content_eqb c Hc) as (-> & -> & -> & ->). cbn [andb].
      rewrite IH2, Happ. lia.
    + assert ((c0 =? c)%N = false) as Hc0 by (by apply N.eqb_neq).
      repeat case_match;
        rewrite ?IH1, ?IH2, ?countState_escapedQuote_other,
          ?countState_toggleQuote, ?countState_endCell, ?countState_endRow,
          ?countState_appendChar, ?Hc0 by done;
        try lia.
      * match goal with H : _ && (d =? DQ)%N = true |- _ =>
          apply andb_prop in H as [_ ->%N.eqb_eq] end.
        cbn [countChar]. rewrite Hdq. lia.
      * match goal with H : (d =? LF)%N = true |- _ =>
          apply N.eqb_eq in H as -> end.
        cbn [countChar]. rewrite Hlf. lia.
Qed.

(** X1: the parser neither loses nor adds a character that is not white
    space, a comma or a double quote: such a character occurs in the cells
    of the result as often as in the input. *)
Theorem content_is_conserved (c : N) (csvString : list N) (Hc : content c) :
  countTable c (parseCSV csvString) = countChar c csvString.
Proof.
  destruct Hc as (Hws & Hcomma & Hq).
  rewrite parseCSV_scan, countTable_finish by done.
  by rewrite scan_content_count.
Qed.

Lemma content_is_conserved_witness :
  content 97%N
  ∧ countTable 97%N (parseCSV (str "a, ,a" ++ LF :: DQ :: str "b,a" ++ [DQ]))
    = 3.
Proof.
  assert (content 97%N) as Hc by (repeat split; done).
  split; [exact Hc |].
  rewrite (content_is_conserved 97%N _ Hc). reflexivity.
Defined.

(** ** A quote that is not closed *)

Lemma scan_open_quote s : ∀ st,
  insideQuotes (scan s st) = true →
  finish (scan (s ++ [DQ]) st) = finish (scan s st).
Proof.
  assert (∀ st, insideQuotes st = true → finish (scan [DQ] st) = finish st)
    as Hbase by (intros st _; by rewrite scan_one).
  induction s as [| c | c d s IH1 IH2] using two_step_ind; intros st Hin.
  - by apply Hbase.
  - change ([c] ++ [DQ]) with [c; DQ]. rewrite scan_two.
    rewrite (scan_one c st) in Hin |- *.
    destruct (c =? DQ)%N.
    { simpl in Hin. destruct (insideQuotes st) eqn:Hst; [done |]. cbn [andb].
      apply Hbase. simpl. by rewrite Hst. }
    repeat case_match; try (by apply Hbase); done.
  - change ((c :: d :: s) ++ [DQ]) with (c :: d :: (s ++ [DQ])).
    rewrite (scan_two c d s st) in Hin |- *.
    rewrite (scan_two c d (s ++ [DQ]) st).
    repeat case_match; by (apply IH1 || apply IH2).
Qed.

(** X2: a quote that is still open at the end of the input is tolerated:
    the input parses as if the quote were closed at its very end. *)
Theorem open_quote_closed_at_end (csvString : list N)
  (Hodd : Nat.odd (countChar DQ csvString) = true) :
  parseCSV (csvString ++ [DQ]) = parseCSV csvString
  ∧ csvToMarkdown (csvString ++ [DQ]) = csvToMarkdown csvString.
Proof.
  assert (parseCSV (csvString ++ [DQ]) = parseCSV csvString) as Hparse.
  { rewrite !parseCSV_scan. apply scan_open_quote.
    by rewrite scan_insideQuotes, Hodd. }
  unfold csvToMarkdown. by rewrite Hparse.
Qed.

Lemma open_quote_closed_at_end_witness :
  Nat.odd (countChar DQ (str "a," ++ DQ :: str "b,c")) = true
  ∧ parseCSV ((str "a," ++ DQ :: str "b,c") ++ [DQ])
    = [[str "a"; str "b,c"]].
Proof.
  split; [reflexivity |].
  rewrite (proj1 (open_quote_closed_at_end (str "a," ++ DQ :: str "b,c")
                    eq_refl)).
  reflexivity.
Defined.

(** ** White space around the input *)

(** White space at the very end of the input changes nothing. *)
Lemma finish_scan_ws t :
  isWhiteSpace t = true →
  ∀ s st, finish (scan (s ++ [t]) st) = finish (scan s st).
Proof.
  intros Ht.
  destruct (N.eqb_spec t LF) as [-> | Hlf];
    [apply finish_scan_terminator; by left |].
  destruct (N.eqb_spec t CR) as [-> | Hcr];
    [apply finish_scan_terminator; by right |].
  assert ((t =? DQ)%N = false) as Hq
    by (destruct (N.eqb_spec t DQ) as [-> |]; done).
  assert ((t =? COMMA)%N = false) as Hcomma
    by (destruct (N.eqb_spec t COMMA) as [-> |]; done).
  apply N.eqb_neq in Hlf, Hcr.
  assert (∀ st, finish (scan [t] st) = finish st) as Hbase.
  { intros st. rewrite scan_one, Hq, Hcomma, Hlf, Hcr. cbn [andb].
    by apply finish_appendChar_ws. }
  induction s as [| c | c d s IH1 IH2] using two_step_ind; intros st.
  - apply Hbase.
  - change ([c] ++ [t]) with [c; t].
    rewrite scan_two, (scan_one c), Hq, Hlf, andb_false_r.
    repeat case_match; by rewrite ?Hbase.
  - change ((c :: d :: s) ++ [t]) with (c :: d :: (s ++ [t])).
    rewrite !scan_two. repeat case_match; apply IH1 || apply IH2.
Qed.

Lemma parseCSV_app_ws s w :
  allWhiteSpace w = true → parseCSV (s ++ w) = parseCSV s.
Proof.
  revert s. induction w as [|t w IH] using rev_ind; intros s Hw.
  - by rewrite app_nil_r.
  - rewrite allWhiteSpace_app in Hw. apply andb_prop in Hw as [Hw Ht].
    simpl in Ht. rewrite andb_true_r in Ht.
    rewrite app_assoc, !parseCSV_scan, finish_scan_ws by done.
    rewrite <- !parseCSV_scan. by apply IH.
Qed.

Lemma trim_ws_app w s : allWhiteSpace w = true → trim (w ++ s) = trim s.
Proof. intros Hw. unfold trim. by rewrite trimStart_app_ws. Qed.

Lemma sameButPadding_close st1 st2 :
  sameButPadding st1 st2 →
  currentRow st1 ++ [trim (currentCell st1)]
  = currentRow st2 ++ [trim (currentCell st2)].
Proof.
  intros (_ & -> & _ & w & Hw & ->). by rewrite trim_ws_app.
Qed.

(** White space at the start of the cell buffer has no effect on what the
    parser does next. *)
Lemma scan_sameButPadding s : ∀ st1 st2,
  sameButPadding st1 st2 → sameButPadding (scan s st1) (scan s st2).
Proof.
  assert (∀ st1 st2, sameButPadding st1 st2 →
            sameButPadding (escapedQuote st1) (escapedQuote st2)) as Hesc.
  { intros st1 st2 (? & ? & ? & w & Hw & Hcell). repeat split; try done.
    exists w. split; [done |]. simpl. by rewrite Hcell, app_assoc. }
  assert (∀ st1 st2, sameButPadding st1 st2 →
            sameButPadding (toggleQuote st1) (toggleQuote st2)) as Htog.
  { intros st1 st2 (? & ? & Hin & ?). repeat split; try done.
    simpl. by rewrite Hin. }
  assert (∀ st1 st2, sameButPadding st1 st2 →
            sameButPadding (endCell st1) (endCell st2)) as Hcell.
  { intros st1 st2 H. pose proof (sameButPadding_close _ _ H) as Hclose.
    destruct H as (? & ? & ? & _). repeat split; try done. by exists []. }
  assert (∀ n st1 st2, sameButPadding st1 st2 →
            sameButPadding (endRow n st1) (endRow n st2)) as Hrow.
  { intros n st1 st2 H. pose proof (sameButPadding_close _ _ H) as Hclose.
    destruct H as (Hrows & ? & ? & _). repeat split; try done.
    - simpl. by rewrite Hrows, Hclose.
    - by exists []. }
  assert (∀ c st1 st2, sameButPadding st1 st2 →
            sameButPadding (appendChar c st1) (appendChar c st2)) as Happ.
  { intros c st1 st2 (? & ? & ? & w & Hw & Hcell'). repeat split; try done.
    exists w. split; [done |]. simpl. by rewrite Hcell', app_assoc. }
  induction s as [| c | c d s IH1 IH2] using two_step_ind;
    intros st1 st2 H; [done | |].
  - rewrite !scan_one. destruct H as (Hrows & Hr & Hin & Hpad) eqn:HH.
    rewrite Hin. clear HH. repeat case_match; auto.
  - rewrite !scan_two. pose proof H as (_ & _ & Hin & _).
    rewrite Hin. repeat case_match; auto.
Qed.

Lemma finish_sameButPadding st1 st2 :
  sameButPadding st1 st2 → finish st1 = finish st2.
Proof.
  intros H. rewrite !finish_closes, (sameButPadding_close _ _ H).
  by destruct H as (-> & _).
Qed.

Lemma atRowStart_endRow n st :
  atRowStart st → atRowStart (endRow n st) ∧ rows (endRow n st) = rows st.
Proof.
  intros (Hin & Hrow & Hcell). split; [done |]. simpl.
  rewrite Hrow. by apply blank_row_dropped.
Qed.

Lemma atRowStart_appendChar c st :
  isWhiteSpace c = true → atRowStart st →
  atRowStart (appendChar c st) ∧ rows (appendChar c st) = rows st.
Proof.
  intros Hc (Hin & Hrow & Hcell). split; [| done]. repeat split; try done.
  simpl. rewrite allWhiteSpace_app, Hcell. simpl. by rewrite Hc.
Qed.

(** White space before the first character that is not white space leaves
    the parser at the start of a row, with the rows it had. *)
Lemma scan_leading_ws w rest :
  (∀ c, head rest = Some c → isWhiteSpace c = false) →
  ∀ st, allWhiteSpace w = true → atRowStart st →
  ∃ st', scan (w ++ rest) st = scan rest st'
         ∧ atRowStart st' ∧ rows st' = rows st.
Proof.
  intros Hrest.
  assert (∀ c, isWhiteSpace c = true →
            (c =? DQ)%N = false ∧ (c =? COMMA)%N = false) as Hspecial.
  { intros c Hc. split.
    - by destruct (N.eqb_spec c DQ) as [-> |].
    - by destruct (N.eqb_spec c COMMA) as [-> |]. }
  assert (∀ c st, isWhiteSpace c = true → atRowStart st →
            ∃ st', scan (c :: rest) st = scan rest st'
                   ∧ atRowStart st' ∧ rows st' = rows st) as Hone.
  { intros c st Hc Hst. destruct (Hspecial c Hc) as [Hq Hcomma].
    pose proof Hst as (Hin & _).
    destruct (N.eqb_spec c CR) as [-> | Hcr].
    - exists (endRow 1 st). split; [| by apply atRowStart_endRow].
      simpl. rewrite Hin. simpl. destruct rest as [|c2 rest2]; [done |].
      destruct (N.eqb_spec c2 LF) as [-> |]; [| done].
      by specialize (Hrest LF eq_refl).
    - rewrite scan_cons_simple, Hcomma, Hin
        by (done || by apply N.eqb_neq in Hq).
      cbn [andb negb]. rewrite andb_true_r.
      destruct (c =? LF)%N.
      + exists (endRow 1 st). split; [done |]. by apply atRowStart_endRow.
      + exists (appendChar c st). split; [done |].
        by apply atRowStart_appendChar. }
  induction w as [| c | c d w IH1 IH2] using two_step_ind; intros st Hw Hst.
  - by exists st.
  - simpl in Hw. rewrite andb_true_r in Hw. by apply Hone.
  - change (allWhiteSpace (c :: d :: w))
      with (isWhiteSpace c && allWhiteSpace (d :: w)) in Hw.
    apply andb_prop in Hw as [Hc Hdw]. pose proof Hdw as Hdw'.
    simpl in Hdw'. apply andb_prop in Hdw' as [Hd Hw].
    destruct (Hspecial c Hc) as [Hq Hcomma]. pose proof Hst as (Hin & _).
    change ((c :: d :: w) ++ rest) with (c :: d :: (w ++ rest)).
    rewrite scan_two, Hq, Hcomma, Hin. cbn [andb negb]. rewrite !andb_true_r.
    assert (∀ st0, atRowStart st0 ∧ rows st0 = rows st →
              ∃ st', scan (d :: w ++ rest) st0 = scan rest st'
                     ∧ atRowStart st' ∧ rows st' = rows st) as Hnext2.
    { intros st0 [Hst0 Hrows]. destruct (IH2 st0 Hdw Hst0) as (st' & ? & ? & ?).
      exists st'. split; [done | split; [done | congruence]]. }
    assert (∀ st0, atRowStart st0 ∧ rows st0 = rows st →
              ∃ st', scan (w ++ rest) st0 = scan rest st'
                     ∧ atRowStart st' ∧ rows st' = rows st) as Hnext1.
    { intros st0 [Hst0 Hrows]. destruct (IH1 st0 Hw Hst0) as (st' & ? & ? & ?).
      exists st'. split; [done | split; [done | congruence]]. }
    destruct (c =? LF)%N; [by apply Hnext2, atRowStart_endRow |].
    destruct (c =? CR)%N.
    + destruct (d =? LF)%N;
        [by apply Hnext1, atRowStart_endRow | by apply Hnext2, atRowStart_endRow].
    + by apply Hnext2, atRowStart_appendChar.
Qed.

Lemma parseCSV_ws_app w rest :
  allWhiteSpace w = true →
  (∀ c, head rest = Some c → isWhiteSpace c = false) →
  parseCSV (w ++ rest) = parseCSV rest.
Proof.
  intros Hw Hrest. rewrite !parseCSV_scan.
  destruct (scan_leading_ws w rest Hrest initial Hw) as (st' & -> & Hst & Hrows);
    [done |].
  apply finish_sameButPadding, scan_sameButPadding.
  destruct Hst as (Hin & Hrow & Hcell). repeat split; try done.
  exists (currentCell st'). split; [done |]. by rewrite app_nil_r.
Qed.

Lemma parseCSV_trim s : parseCSV (trim s) = parseCSV s.
Proof.
  destruct (trimStart_split s) as (a & Hs & Ha).
  destruct (trimEnd_split (trimStart s)) as (b & Hs' & Hb).
  change (trimEnd (trimStart s)) with (trim s) in Hs'.
  destruct (trim s) as [|c t] eqn:Ht.
  - apply trim_blank_iff in Ht. by rewrite (parseCSV_blank s).
  - rewrite Hs' in Hs. rewrite Hs.
    rewrite parseCSV_ws_app; [by rewrite parseCSV_app_ws | done |].
    intros c' [= <-]. by apply (trimStart_head s c (t ++ b)).
Qed.

(** X3: white space around the input has no effect: the input and its
    trim parse to the same table, so they give the same output and the
    same outcome of the entry point (which the host hands an input that it
    may have trimmed already). *)
Theorem input_trim_irrelevant (csvString : list N) :
  parseCSV (trim csvString) = parseCSV csvString
  ∧ csvToMarkdown (trim csvString) = csvToMarkdown csvString
  ∧ convertCSVToMarkdown (trim csvString) = convertCSVToMarkdown csvString.
Proof.
  assert (csvToMarkdown (trim csvString) = csvToMarkdown csvString) as Hmd
    by (unfold csvToMarkdown; by rewrite parseCSV_trim).
  split; [apply parseCSV_trim |]. split; [done |].
  unfold convertCSVToMarkdown. rewrite trim_idemp, Hmd.
  destruct (trim csvString) eqn:Ht; [| by destruct csvString].
  simpl. by rewrite orb_true_r.
Qed.

(** ** Texts of several lines *)

Lemma foldl_pushRow l : ∀ rs, foldl pushRow rs l = rs ++ keptRows l.
Proof.
  unfold keptRows.
  induction l as [|r l IH]; intros rs; simpl; [by rewrite app_nil_r |].
  rewrite IH. unfold pushRow. destruct (someNonEmpty r); [| done].
  by rewrite <- app_assoc.
Qed.

(** Outside quotes, a carriage return that no line feed follows ends the
    row. *)
Lemma scan_cr_alone rest st :
  insideQuotes st = false → head rest ≠ Some LF →
  scan (CR :: rest) st = scan rest (endRow 1 st).
Proof.
  intros Hin Hrest. simpl. rewrite Hin. simpl.
  destruct rest as [|c rest]; [done |].
  destruct (N.eqb_spec c LF) as [-> |]; done.
Qed.

(** A line of plain cells and its line end, read from the start of a
    row. *)
Lemma scan_line_end sep cells rest rs n :
  sep = [LF] ∨ sep = [CR; LF] ∨ (sep = [CR] ∧ head rest ≠ Some LF) →
  cells ≠ [] → Forall plain cells →
  finish (scan (csvLine cells ++ sep ++ rest) (PState rs [] [] false n))
  = finish (scan rest (PState (pushRow rs (trim <$> cells)) [] [] false 0)).
Proof.
  intros Hsep Hne Hcells.
  destruct Hsep as [-> | Hsep]; [by apply scan_line |].
  destruct (nonempty_snoc cells Hne) as (cs & x & ->).
  apply Forall_app in Hcells as [Hcs Hx%Forall_inv].
  rewrite scan_cells by done.
  assert (∀ k st, forget st = PState rs (trim <$> cs) x false 0 →
            finish (scan rest (endRow k st))
            = finish (scan rest
                        (PState (pushRow rs (trim <$> cs ++ [x])) [] [] false 0)))
    as Hend.
  { intros k st Hst. apply scan_same_vars. unfold forget in *. simpl.
    injection Hst as -> -> -> ->. by rewrite fmap_app. }
  destruct Hsep as [-> | [-> Hrest]].
  - change ([CR; LF] ++ rest) with (CR :: LF :: rest). rewrite scan_two. simpl.
    by apply (Hend 2).
  - change ([CR] ++ rest) with (CR :: rest). rewrite scan_cr_alone by done.
    by apply (Hend 1).
Qed.

Lemma Forall_join (P : N → Prop) sep parts :
  Forall P sep → Forall (Forall P) parts → Forall P (join sep parts).
Proof.
  intros Hsep. induction 1 as [|part parts Hpart Hparts IH]; [done |].
  destruct parts as [|part' parts]; [done |].
  rewrite join_cons by done. by rewrite !Forall_app.
Qed.

Lemma csvLine_no_LF cells :
  Forall plain cells → Forall (fun c => c ≠ LF) (csvLine cells).
Proof.
  intros Hcells. apply Forall_join; [by repeat constructor |].
  eapply Forall_impl; [done |]. intros cell Hcell.
  eapply Forall_impl; [done |]. simpl. by intros c (_ & _ & ? & _).
Qed.

Lemma head_Forall (P : N → Prop) s c : Forall P s → head s = Some c → P c.
Proof. intros Hs. destruct s; [done |]. intros [= <-]. by apply Forall_inv in Hs. Qed.

(** Lines of plain cells, joined by one of the three line ends. *)
Lemma scan_lines sep lines :
  sep = [LF] ∨ sep = [CR; LF] ∨ sep = [CR] →
  Forall (fun cells => cells ≠ [] ∧ Forall plain cells) lines →
  ∀ rs n,
    finish (scan (join sep (csvLine <$> lines)) (PState rs [] [] false n))
    = foldl pushRow rs (trimRows lines).
Proof.
  intros Hsep. induction 1 as [|cells lines [Hne Hcells] Hlines IH];
    intros rs n; [done |].
  destruct lines as [|cells' lines].
  - simpl. by rewrite scan_last_line.
  - unfold trimRows. rewrite !fmap_cons, join_cons by done. cbn [foldl].
    rewrite <- !fmap_cons. fold (trimRows (cells' :: lines)).
    rewrite scan_line_end, IH; [done | | done | done].
    destruct Hsep as [-> | [-> | ->]]; [by left | by right; left |].
    right. right. split; [done |]. intros Hhead.
    assert (Forall (fun c => c ≠ LF) (join [CR] (csvLine <$> cells' :: lines)))
      as Hall.
    { apply Forall_join; [by repeat constructor |].
      apply Forall_fmap. eapply Forall_impl; [done |].
      intros l [_ Hl]. by apply csvLine_no_LF. }
    by apply (head_Forall _ _ _ Hall Hhead).
Qed.

(** X4: a text of lines of plain cells (cells with no comma, quote or line
    terminator), the lines joined by line feeds, by carriage returns or by
    both, parses to the rows of the trimmed cells, without the rows whose
    cells are all blank: the three line ends give the same table. *)
Theorem line_ends_agree (sep : list N) (lines : list (list (list N)))
  (Hsep : sep = [LF] ∨ sep = [CR; LF] ∨ sep = [CR])
  (Hlines : Forall (fun cells => cells ≠ [] ∧ Forall plain cells) lines) :
  parseCSV (join sep (csvLine <$> lines)) = keptRows (trimRows lines)
  ∧ parseCSV (join sep (csvLine <$> lines))
    = parseCSV (join [LF] (csvLine <$> lines)).
Proof.
  assert (∀ sep', sep' = [LF] ∨ sep' = [CR; LF] ∨ sep' = [CR] →
            parseCSV (join sep' (csvLine <$> lines))
            = keptRows (trimRows lines)) as Hparse.
  { intros sep' Hsep'. rewrite parseCSV_scan. unfold initial.
    by rewrite scan_lines, foldl_pushRow. }
  split; [by apply Hparse |]. rewrite !Hparse; auto.
Qed.

Lemma line_ends_agree_witness :
  Forall (fun cells => cells ≠ [] ∧ Forall plain cells)
    [[str "Name"; str "Age"]; [str " "; []]; [str "John"; str " 25"]]
  ∧ parseCSV (str "Name,Age" ++ CR :: LF :: str " ," ++ CR :: LF ::
              str "John, 25")
    = [[str "Name"; str "Age"]; [str "John"; str "25"]].
Proof.
  assert (Forall (fun cells => cells ≠ [] ∧ Forall plain cells)
            [[str "Name"; str "Age"]; [str " "; []]; [str "John"; str " 25"]])
    as Hlines.
  { repeat (constructor;
              [split; [done |];
               repeat (constructor; [by apply isPlain_plain |]); constructor |]).
    constructor. }
  split; [exact Hlines |].
  pose proof (proj1 (line_ends_agree [CR; LF] _ (or_intror (or_introl eq_refl))
                       Hlines)) as H.
  exact H.
Defined.

(** ** Quoted cells *)

Lemma scan_quote_open rest st :
  insideQuotes st = false → scan (DQ :: rest) st = scan rest (toggleQuote st).
Proof. intros Hin. simpl. rewrite Hin. by destruct rest. Qed.

Lemma scan_quote_close rest st :
  insideQuotes st = true → head rest ≠ Some DQ →
  scan (DQ :: rest) st = scan rest (toggleQuote st).
Proof.
  intros Hin Hrest. simpl. destruct rest as [|c rest]; [done |].
  rewrite Hin. destruct (N.eqb_spec c DQ) as [-> |]; done.
Qed.

Lemma scan_cons_inside c rest st :
  insideQuotes st = true → c ≠ DQ →
  scan (c :: rest) st = scan rest (appendChar c st).
Proof.
  intros Hin Hc. simpl. destruct (N.eqb_spec c DQ); [done |].
  rewrite Hin. cbn [negb]. by rewrite !andb_false_r.
Qed.

(** Inside quotes, the text of a cell with its quotes doubled goes to the
    cell buffer, and the quote after it closes the field. *)
Lemma scan_escaped v : ∀ rest st,
  insideQuotes st = true → head rest ≠ Some DQ →
  finish (scan (escapeQuotes v ++ DQ :: rest) st)
  = finish (scan rest
              (PState (rows st) (currentRow st) (currentCell st ++ v) false 0)).
Proof.
  induction v as [|c v IH]; intros rest st Hin Hrest.
  - simpl app. rewrite scan_quote_close by done.
    apply scan_same_vars. unfold forget. simpl. by rewrite app_nil_r, Hin.
  - cbn [escapeQuotes]. destruct (N.eqb_spec c DQ) as [-> | Hc].
    + change (([DQ; DQ] ++ escapeQuotes v) ++ DQ :: rest)
        with (DQ :: DQ :: (escapeQuotes v ++ DQ :: rest)).
      rewrite scan_two, Hin. simpl. rewrite IH by done.
      simpl. by rewrite <- app_assoc.
    + change (([c] ++ escapeQuotes v) ++ DQ :: rest)
        with (c :: (escapeQuotes v ++ DQ :: rest)).
      rewrite scan_cons_inside, IH by done. simpl. by rewrite <- app_assoc.
Qed.

Lemma scan_quoted v rest st :
  insideQuotes st = false → head rest ≠ Some DQ →
  finish (scan (quoteField v ++ rest) st)
  = finish (scan rest
              (PState (rows st) (currentRow st) (currentCell st ++ v) false 0)).
Proof.
  intros Hin Hrest. unfold quoteField.
  change ((DQ :: escapeQuotes v ++ [DQ]) ++ rest)
    with (DQ :: ((escapeQuotes v ++ [DQ]) ++ rest)).
  rewrite <- app_assoc, scan_quote_open by done.
  change ([DQ] ++ rest) with (DQ :: rest).
  rewrite scan_escaped; [done | simpl; by rewrite Hin | done].
Qed.

(** A line of quoted cells, read from the start of a cell. *)
Lemma scan_quoted_cells cells : ∀ x rest st,
  insideQuotes st = false → currentCell st = [] → head rest ≠ Some DQ →
  finish (scan (quotedLine (cells ++ [x]) ++ rest) st)
  = finish (scan rest
              (PState (rows st) (currentRow st ++ (trim <$> cells)) x false 0)).
Proof.
  unfold quotedLine.
  induction cells as [|y cells IH]; intros x rest st Hin Hcell Hrest.
  - change (join [COMMA] (quoteField <$> [] ++ [x])) with (quoteField x).
    rewrite scan_quoted by done. simpl. by rewrite Hcell, app_nil_r.
  - change ((y :: cells) ++ [x]) with (y :: (cells ++ [x])).
    rewrite fmap_cons, join_cons by (by destruct cells).
    rewrite <- !app_assoc, scan_quoted by done.
    change ([COMMA] ++ join [COMMA] (quoteField <$> cells ++ [x]) ++ rest)
      with (COMMA :: (join [COMMA] (quoteField <$> cells ++ [x]) ++ rest)).
    rewrite scan_cons_simple by done. simpl.
    rewrite IH by done. simpl. by rewrite Hcell, <- app_assoc.
Qed.

Lemma scan_quoted_line cells rest rs n :
  cells ≠ [] →
  finish (scan (quotedLine cells ++ LF :: rest) (PState rs [] [] false n))
  = finish (scan rest (PState (pushRow rs (trim <$> cells)) [] [] false 0)).
Proof.
  intros Hne. destruct (nonempty_snoc cells Hne) as (cs & x & ->).
  rewrite scan_quoted_cells by done. rewrite scan_cons_simple by done. simpl.
  apply scan_same_vars. unfold forget. simpl. by rewrite fmap_app.
Qed.

Lemma scan_quoted_last_line cells rs n :
  cells ≠ [] →
  finish (scan (quotedLine cells) (PState rs [] [] false n))
  = pushRow rs (trim <$> cells).
Proof.
  intros Hne. destruct (nonempty_snoc cells Hne) as (cs & x & ->).
  rewrite <- (app_nil_r (quotedLine (cs ++ [x]))), scan_quoted_cells by done.
  simpl. rewrite finish_closes. simpl. by rewrite fmap_app.
Qed.

Lemma scan_quoted_text rs0 :
  Forall (fun cells => cells ≠ []) rs0 →
  ∀ rs n,
    finish (scan (quotedText rs0) (PState rs [] [] false n))
    = foldl pushRow rs (trimRows rs0).
Proof.
  unfold quotedText.
  induction 1 as [|cells lines Hne Hlines IH]; intros rs n; [done |].
  destruct lines as [|cells' lines].
  - simpl. by rewrite scan_quoted_last_line.
  - unfold trimRows. rewrite !fmap_cons, join_cons by done. cbn [foldl].
    rewrite <- !fmap_cons. fold (trimRows (cells' :: lines)).
    change ([LF] ++ join [LF] (quotedLine <$> cells' :: lines))
      with (LF :: join [LF] (quotedLine <$> cells' :: lines)).
    by rewrite scan_quoted_line, IH.
Qed.

Lemma parseCSV_quotedText rs :
  Forall (fun cells => cells ≠ []) rs →
  parseCSV (quotedText rs) = keptRows (trimRows rs).
Proof.
  intros Hrs. rewrite parseCSV_scan. unfold initial.
  by rewrite scan_quoted_text, foldl_pushRow.
Qed.

Lemma trimRows_trimmed rs : Forall (Forall trimmed) rs → trimRows rs = rs.
Proof.
  unfold trimRows. induction 1 as [|r rs Hr _ IH]; [done |].
  rewrite fmap_cons, IH. f_equal.
  induction Hr as [|cell r Hcell _ IHr]; [done |].
  by rewrite fmap_cons, IHr, Hcell.
Qed.

Lemma keptRows_all rs :
  Forall (fun r => someNonEmpty r = true) rs → keptRows rs = rs.
Proof.
  unfold keptRows. induction 1 as [|r rs Hr _ IH]; [done |].
  simpl. by rewrite Hr, IH.
Qed.

(** X5: writing every cell between quotes, with its quotes doubled, and
    parsing the text gives the cells back, whatever they contain (commas,
    line ends, quotes), trimmed, without the rows whose cells are all
    blank. A table of trimmed cells in which every row has a cell that is
    not empty comes back as it is; such are the tables the parser returns,
    so the parser reads back its own result. *)
Theorem quoted_round_trip (rs : list (list (list N)))
  (Hrs : Forall (fun cells => cells ≠ []) rs) :
  parseCSV (quotedText rs) = keptRows (trimRows rs)
  ∧ (Forall (Forall (fun cell => trim cell = cell)) rs →
     Forall (fun r => someNonEmpty r = true) rs →
     parseCSV (quotedText rs) = rs)
  ∧ (∀ csvString,
       parseCSV (quotedText (parseCSV csvString)) = parseCSV csvString).
Proof.
  split; [by apply parseCSV_quotedText |]. split.
  - intros Htrim Hkept.
    by rewrite parseCSV_quotedText, trimRows_trimmed, keptRows_all.
  - intros s. rewrite parseCSV_quotedText.
    + rewrite trimRows_trimmed by apply parseCSV_trimmed.
      apply keptRows_all, parseCSV_rows_kept.
    + eapply Forall_impl; [apply parseCSV_rows_nonempty |].
      intros r Hr ->. simpl in Hr. lia.
Qed.

Lemma quoted_round_trip_witness :
  Forall (fun cells => cells ≠ [])
    [[str "Name"; str "Quote"]; [str "Doe, Jane"; DQ :: str "Hi" ++ [DQ; LF]]]
  ∧ parseCSV (quotedText [[str "Name"; str "Quote"];
                          [str "Doe, Jane"; DQ :: str "Hi" ++ [DQ; LF]]])
    = [[str "Name"; str "Quote"]; [str "Doe, Jane"; DQ :: str "Hi" ++ [DQ]]].
Proof.
  assert (Forall (fun cells : list (list N) => cells ≠ [])
            [[str "Name"; str "Quote"];
             [str "Doe, Jane"; DQ :: str "Hi" ++ [DQ; LF]]]) as Hrs
    by (repeat (constructor; [done |]); constructor).
  split; [exact Hrs |].
  rewrite (proj1 (quoted_round_trip _ Hrs)). reflexivity.
Defined.

(** ** The size of the table *)

Lemma length_pushRow rs r : length (pushRow rs r) ≤ S (length rs).
Proof.
  unfold pushRow. case_match; [| lia]. rewrite length_app. simpl. lia.
Qed.

Lemma andb_eqb_true (c d : N) b : (c =? d)%N && b = true → (c =? d)%N = true.
Proof. by intros [? _]%andb_prop. Qed.

(** A row is pushed only at a line feed or a carriage return. *)
Lemma scan_rows_bound s : ∀ st,
  length (rows (scan s st))
  ≤ length (rows st) + countChar LF s + countChar CR s.
Proof.
  induction s as [| c | c d s IH1 IH2] using two_step_ind; intros st.
  - simpl. lia.
  - rewrite scan_one. cbn [countChar].
    pose proof (length_pushRow (rows st)
                  (currentRow st ++ [trim (currentCell st)])) as Hpush.
    destruct (c =? DQ)%N; [simpl; lia |].
    destruct ((c =? COMMA)%N && negb (insideQuotes st)); [simpl; lia |].
    destruct ((c =? LF)%N && negb (insideQuotes st)) eqn:Hlf.
    { rewrite (andb_eqb_true _ _ _ Hlf). simpl. lia. }
    destruct ((c =? CR)%N && negb (insideQuotes st)) eqn:Hcr.
    { rewrite (andb_eqb_true _ _ _ Hcr). simpl. lia. }
    simpl. lia.
  - rewrite scan_two.
    change (countChar LF (c :: d :: s))
      with ((if (c =? LF)%N then 1 else 0) + countChar LF (d :: s)).
    change (countChar CR (c :: d :: s))
      with ((if (c =? CR)%N then 1 else 0) + countChar CR (d :: s)).
    pose proof (length_pushRow (rows st)
                  (currentRow st ++ [trim (currentCell st)])) as Hpush.
    destruct (c =? DQ)%N.
    { destruct (insideQuotes st && (d =? DQ)%N).
      - specialize (IH1 (escapedQuote st)). cbn [countChar].
        cbn [rows escapedQuote toggleQuote endCell endRow appendChar] in IH1. lia.
      - specialize (IH2 (toggleQuote st)). cbn [rows escapedQuote toggleQuote endCell endRow appendChar] in IH2. lia. }
    destruct ((c =? COMMA)%N && negb (insideQuotes st)).
    { specialize (IH2 (endCell st)). cbn [rows escapedQuote toggleQuote endCell endRow appendChar] in IH2. lia. }
    destruct ((c =? LF)%N && negb (insideQuotes st)) eqn:Hlf.
    { rewrite (andb_eqb_true _ _ _ Hlf).
      specialize (IH2 (endRow 1 st)). cbn [rows escapedQuote toggleQuote endCell endRow appendChar] in IH2. lia. }
    destruct ((c =? CR)%N && negb (insideQuotes st)) eqn:Hcr.
    { rewrite (andb_eqb_true _ _ _ Hcr). destruct (d =? LF)%N.
      - specialize (IH1 (endRow 2 st)). cbn [countChar]. cbn [rows escapedQuote toggleQuote endCell endRow appendChar] in IH1. lia.
      - specialize (IH2 (endRow 1 st)). cbn [rows escapedQuote toggleQuote endCell endRow appendChar] in IH2. lia. }
    specialize (IH2 (appendChar c st)). cbn [rows escapedQuote toggleQuote endCell endRow appendChar] in IH2. lia.
Qed.

(** A cell is closed before the end of its row only at a comma. *)
Lemma scan_row_length_bound s : ∀ st k bound,
  length (currentRow st) ≤ k → k + countChar COMMA s ≤ bound →
  Forall (fun r => length r ≤ S bound) (rows st) →
  length (currentRow (scan s st)) ≤ bound
  ∧ Forall (fun r => length r ≤ S bound) (rows (scan s st)).
Proof.
  assert (∀ st n bound,
            length (currentRow st) ≤ bound →
            Forall (fun r => length r ≤ S bound) (rows st) →
            Forall (fun r => length r ≤ S bound) (rows (endRow n st))) as Hend.
  { intros st n bound Hrow Hrows. simpl. apply Forall_pushRow; [done |].
    intros _. rewrite length_app. simpl. lia. }
  induction s as [| c | c d s IH1 IH2] using two_step_ind;
    intros st k bound Hrow Hbound Hrows.
  - simpl in *. split; [lia | done].
  - rewrite scan_one. cbn [countChar] in Hbound.
    destruct (c =? DQ)%N; [simpl; split; [lia | done] |].
    destruct ((c =? COMMA)%N && negb (insideQuotes st)) eqn:Hcomma.
    { rewrite (andb_eqb_true _ _ _ Hcomma) in Hbound. simpl.
      rewrite length_app. simpl. split; [lia | done]. }
    destruct ((c =? LF)%N && negb (insideQuotes st)).
    { split; [simpl; lia | apply Hend; [lia | done]]. }
    destruct ((c =? CR)%N && negb (insideQuotes st)).
    { split; [simpl; lia | apply Hend; [lia | done]]. }
    simpl. split; [lia | done].
  - rewrite scan_two.
    change (countChar COMMA (c :: d :: s))
      with ((if (c =? COMMA)%N then 1 else 0) + countChar COMMA (d :: s))
      in Hbound.
    assert (countChar COMMA s ≤ countChar COMMA (d :: s)) as Hs
      by (cbn [countChar]; lia).
    destruct (c =? DQ)%N.
    { destruct (insideQuotes st && (d =? DQ)%N).
      - apply (IH1 _ k); [by simpl | lia | by simpl].
      - apply (IH2 _ k); [by simpl | lia | by simpl]. }
    destruct ((c =? COMMA)%N && negb (insideQuotes st)) eqn:Hcomma.
    { rewrite (andb_eqb_true _ _ _ Hcomma) in Hbound.
      apply (IH2 _ (S k)); [| lia | by simpl].
      simpl. rewrite length_app. simpl. lia. }
    destruct ((c =? LF)%N && negb (insideQuotes st)).
    { apply (IH2 _ 0); [simpl; lia | lia | apply Hend; [lia | done]]. }
    destruct ((c =? CR)%N && negb (insideQuotes st)).
    { destruct (d =? LF)%N.
      - apply (IH1 _ 0); [simpl; lia | lia | apply Hend; [lia | done]].
      - apply (IH2 _ 0); [simpl; lia | lia | apply Hend; [lia | done]]. }
    apply (IH2 _ k); [by simpl | lia | by simpl].
Qed.

Lemma max_list_le (l : list nat) bound :
  Forall (fun n => n ≤ bound) l → max_list l ≤ bound.
Proof. induction 1; simpl; lia. Qed.

(** X6: the table is not larger than the input allows: it has at most one
    row more than the input has line feeds and carriage returns, and every
    row has at least one cell and at most one cell more than the input has
    commas, and so has the table columns. *)
Theorem table_size_bounds (csvString : list N) :
  length (parseCSV csvString)
  ≤ S (countChar LF csvString + countChar CR csvString)
  ∧ Forall (fun r => 1 ≤ length r ≤ S (countChar COMMA csvString))
      (parseCSV csvString)
  ∧ columnCount (parseCSV csvString) ≤ S (countChar COMMA csvString).
Proof.
  assert (Forall (fun r => length r ≤ S (countChar COMMA csvString))
            (parseCSV csvString)) as Hcols.
  { rewrite parseCSV_scan, finish_closes.
    destruct (scan_row_length_bound csvString initial 0
                (countChar COMMA csvString)) as [Hrow Hrows];
      [simpl; lia | lia | done |].
    apply Forall_pushRow; [done |]. intros _. rewrite length_app. simpl. lia. }
  split; [| split].
  - rewrite parseCSV_scan, finish_closes.
    pose proof (scan_rows_bound csvString initial) as Hrows.
    pose proof (length_pushRow (rows (scan csvString initial))
                  (currentRow (scan csvString initial)
                   ++ [trim (currentCell (scan csvString initial))])).
    simpl in Hrows. lia.
  - pose proof (parseCSV_rows_nonempty csvString) as Hne.
    rewrite Forall_forall in *. intros r Hr.
    specialize (Hne r Hr). specialize (Hcols r Hr). lia.
  - apply max_list_le, Forall_fmap. by eapply Forall_impl.
Qed.

(** ** Line by line *)

Lemma pushRow_app before rs r : pushRow (before ++ rs) r = before ++ pushRow rs r.
Proof. unfold pushRow. case_match; [by rewrite app_assoc | done]. Qed.

(** The rows that the parser already has play no part in what it does. *)
Lemma scan_withRowsBefore before s : ∀ st,
  scan s (withRowsBefore before st) = withRowsBefore before (scan s st).
Proof.
  assert (∀ n st, endRow n (withRowsBefore before st)
                  = withRowsBefore before (endRow n st)) as Hend.
  { intros n st. unfold endRow, withRowsBefore. simpl. by rewrite pushRow_app. }
  induction s as [| c | c d s IH1 IH2] using two_step_ind; intros st.
  - done.
  - rewrite !scan_one. cbn [withRowsBefore insideQuotes].
    repeat case_match; by rewrite ?Hend.
  - rewrite !scan_two. cbn [withRowsBefore insideQuotes].
    repeat case_match; rewrite ?Hend; by rewrite <- ?IH1, <- ?IH2.
Qed.

Lemma finish_withRowsBefore before st :
  finish (withRowsBefore before st) = before ++ finish st.
Proof. rewrite !finish_closes. simpl. apply pushRow_app. Qed.

Lemma parseCSV_lines p q :
  Nat.even (countChar DQ p) = true →
  parseCSV (p ++ LF :: q) = parseCSV p ++ parseCSV q.
Proof.
  intros Hp. rewrite <- (parseCSV_terminator LF p) by (by left).
  rewrite !parseCSV_scan, (scan_lf_split p).
  pose proof (scan_line_start p Hp) as Hstart.
  set (st1 := scan (p ++ [LF]) initial) in *.
  assert (finish st1 = rows st1) as ->.
  { rewrite <- finish_forget, Hstart. done. }
  rewrite <- finish_withRowsBefore, <- scan_withRowsBefore.
  apply scan_same_vars. rewrite Hstart. unfold forget, withRowsBefore. simpl.
  by rewrite app_nil_r.
Qed.

(** X14: the input is parsed line by line: when the quotes before a line
    feed (or before a carriage return and a line feed) are closed, the
    table of the whole input is the table of the text before it followed
    by the table of the text after it. *)
Theorem parsed_line_by_line (p q : list N)
  (Hp : Nat.even (countChar DQ p) = true) :
  parseCSV (p ++ LF :: q) = parseCSV p ++ parseCSV q
  ∧ parseCSV (p ++ CR :: LF :: q) = parseCSV p ++ parseCSV q.
Proof.
  split; [by apply parseCSV_lines |].
  change (p ++ CR :: LF :: q) with (p ++ [CR] ++ LF :: q).
  rewrite app_assoc, parseCSV_lines, parseCSV_terminator; [done | by right |].
  rewrite countChar_app. simpl. by rewrite Nat.add_0_r.
Qed.

Lemma parsed_line_by_line_witness :
  Nat.even (countChar DQ (str "a," ++ DQ :: str "b" ++ LF :: str "c" ++ [DQ]))
  = true
  ∧ parseCSV ((str "a," ++ DQ :: str "b" ++ LF :: str "c" ++ [DQ])
              ++ LF :: str "d,e")
    = [[str "a"; str "b" ++ LF :: str "c"]; [str "d"; str "e"]].
Proof.
  split; [reflexivity |].
  rewrite (proj1 (parsed_line_by_line
                    (str "a," ++ DQ :: str "b" ++ LF :: str "c" ++ [DQ])
                    (str "d,e") eq_refl)).
  reflexivity.
Defined.

(** * Further properties of the formatter *)

(** ** Normalized tables *)

Lemma max_list_const (l : list nat) n :
  l ≠ [] → Forall (fun m => m = n) l → max_list l = n.
Proof.
  intros Hne Hl. induction Hl as [|m l -> Hl IH]; [done |].
  destruct l as [|m' l]; [simpl; lia |].
  change (max_list (n :: m' :: l)) with (Nat.max n (max_list (m' :: l))).
  rewrite IH by done. lia.
Qed.

Lemma columnCount_normalizedRows rs :
  columnCount (normalizedRows rs) = columnCount rs.
Proof.
  destruct rs as [|r rs]; [done |].
  apply max_list_const; [done |].
  apply Forall_fmap. apply (normalizedRows_length (r :: rs)).
Qed.

Lemma normalizeRow_id n r : length r = n → normalizeRow n r = r.
Proof.
  intros <-. unfold normalizeRow. rewrite Nat.sub_diag. apply app_nil_r.
Qed.

Lemma normalizedRows_idemp rs :
  normalizedRows (normalizedRows rs) = normalizedRows rs.
Proof.
  unfold normalizedRows at 1. rewrite columnCount_normalizedRows.
  rewrite <- (list_fmap_id (normalizedRows rs)) at 2.
  apply Forall_fmap_ext_1.
  eapply Forall_impl; [apply normalizedRows_length |].
  intros r Hr. by apply normalizeRow_id.
Qed.

Lemma columnWidths_normalizedRows rs :
  columnWidths (normalizedRows rs) = columnWidths rs.
Proof.
  unfold columnWidths.
  by rewrite normalizedRows_idemp, columnCount_normalizedRows.
Qed.

Lemma markdownRows_normalizedRows rs :
  markdownRows (normalizedRows rs) = markdownRows rs.
Proof.
  unfold markdownRows.
  by rewrite normalizedRows_idemp, columnWidths_normalizedRows.
Qed.

(** X7: a ragged table is formatted as the table of its rows filled up
    with empty cells: normalizing a normalized table changes nothing, and
    the normalized table has the same number of columns, the same widths
    and the same output as the table itself. *)
Theorem normalization_is_idempotent (rs : list (list (list N))) :
  normalizedRows (normalizedRows rs) = normalizedRows rs
  ∧ columnCount (normalizedRows rs) = columnCount rs
  ∧ columnWidths (normalizedRows rs) = columnWidths rs
  ∧ convertToMarkdownTable (normalizedRows rs) = convertToMarkdownTable rs.
Proof.
  split; [apply normalizedRows_idemp |].
  split; [apply columnCount_normalizedRows |].
  split; [apply columnWidths_normalizedRows |].
  by rewrite !convertToMarkdownTable_join, markdownRows_normalizedRows.
Qed.

(** ** The cells in the output *)

Lemma join_elem sep parts part :
  part ∈ parts → ∃ before after, join sep parts = before ++ part ++ after.
Proof.
  intros [k Hk]%list_elem_of_lookup_1. by apply (join_lookup sep parts k).
Qed.

(** In a line, every padded cell stands between a pipe and a space before
    it and a space and a pipe after it. *)
Lemma framed_lookup parts : ∀ k part,
  parts !! k = Some part →
  ∃ before after,
    str "| " ++ join (str " | ") parts ++ str " |"
    = before ++ str "| " ++ part ++ str " |" ++ after.
Proof.
  induction parts as [|y parts IH]; intros k part Hk; [done |].
  destruct k as [|k]; simpl in Hk.
  - injection Hk as ->. destruct parts as [|y' parts].
    + exists [], []. by rewrite app_nil_r.
    + exists [], ([SPACE] ++ join (str " | ") (y' :: parts) ++ str " |").
      rewrite join_cons by done.
      change (str " | ") with (str " |" ++ [SPACE]).
      by rewrite <- !app_assoc.
  - destruct (IH k part Hk) as (before & after & Hjoin).
    rewrite join_cons by (by destruct parts).
    exists (str "| " ++ y ++ [SPACE] ++ before), after.
    change (str " | ") with ([SPACE] ++ str "| ") at 1.
    rewrite <- !app_assoc. do 3 f_equal. exact Hjoin.
Qed.

Lemma line_in_markdownRows rs r :
  r ∈ rs →
  formatRow (columnWidths rs) (normalizeRow (columnCount rs) r)
  ∈ markdownRows rs.
Proof.
  intros Hr. destruct rs as [|r0 rest]; [by apply elem_of_nil in Hr |].
  rewrite markdownRows_cons. apply elem_of_cons in Hr as [-> | Hr]; [by left |].
  right. right.
  by apply (list_elem_of_fmap_2
              (fun r' => formatRow (columnWidths (r0 :: rest))
                           (normalizeRow (columnCount (r0 :: rest)) r'))).
Qed.

(** X8: no cell is cut or changed: every cell of every row stands in the
    output as it is, after a pipe and a space, followed by the spaces that
    fill the width of its column and by a space and a pipe. *)
Theorem cells_stand_in_output (rs : list (list (list N)))
  (r : list (list N)) (j : nat) (cell : list N)
  (Hr : r ∈ rs) (Hcell : r !! j = Some cell) :
  ∃ w before after,
    columnWidths rs !! j = Some w
    ∧ length cell ≤ w
    ∧ convertToMarkdownTable rs
      = before ++ str "| " ++ cell ++ replicate (w - length cell) SPACE
        ++ str " |" ++ after.
Proof.
  assert (normalizeRow (columnCount rs) r !! j = Some cell) as Hnorm
    by (by apply normalizeRow_lookup).
  pose proof (elem_of_normalizedRows r rs Hr) as Hrow.
  assert (j < columnCount rs) as Hj.
  { pose proof (normalizedRows_length rs) as Hlen.
    rewrite Forall_forall in Hlen. rewrite <- (Hlen _ Hrow).
    by eapply lookup_lt_Some. }
  destruct (lookup_lt_is_Some_2 (columnWidths rs) j) as [w Hw];
    [by rewrite length_columnWidths |].
  assert (paddedCells (columnWidths rs) (normalizeRow (columnCount rs) r) !! j
          = Some (cell ++ replicate (w - length cell) SPACE)) as Hpad.
  { unfold paddedCells. by rewrite list_lookup_imap, Hnorm, Hw. }
  destruct (framed_lookup _ _ _ Hpad) as (a & b & Hline).
  destruct (join_elem [LF] (markdownRows rs) _ (line_in_markdownRows rs r Hr))
    as (a' & b' & Hout).
  exists w, (a' ++ a), (b ++ b'). split; [done |].
  split; [by apply (cell_fits rs _ j cell w Hrow) |].
  rewrite convertToMarkdownTable_join, Hout. unfold formatRow. rewrite Hline.
  by rewrite <- !app_assoc.
Qed.

Lemma cells_stand_in_output_witness :
  [str "John"; str "25"] ∈ [[str "Name"; str "Age"]; [str "John"; str "25"]]
  ∧ [str "John"; str "25"] !! 1 = Some (str "25")
  ∧ ∃ w before after,
      columnWidths [[str "Name"; str "Age"]; [str "John"; str "25"]] !! 1
      = Some w
      ∧ length (str "25") ≤ w
      ∧ convertToMarkdownTable [[str "Name"; str "Age"]; [str "John"; str "25"]]
        = before ++ str "| " ++ str "25"
          ++ replicate (w - length (str "25")) SPACE ++ str " |" ++ after.
Proof.
  assert ([str "John"; str "25"]
          ∈ [[str "Name"; str "Age"]; [str "John"; str "25"]]) as Hr
    by (right; left).
  split; [exact Hr |]. split; [reflexivity |].
  exact (cells_stand_in_output _ _ 1 (str "25") Hr eq_refl).
Defined.

(** * The calls of the entry point *)

(** The three ways the entry point can go. *)
Lemma conversion_cases s :
  (trim s = [] ∧ falsy s || falsy (trim s) = true)
  ∨ (trim s ≠ [] ∧ parseCSV s = []
     ∧ falsy s || falsy (trim s) = false
     ∧ csvToMarkdown s = [])
  ∨ (trim s ≠ [] ∧ parseCSV s ≠ []
     ∧ falsy s || falsy (trim s) = false
     ∧ falsy (csvToMarkdown s) || (length (trim (csvToMarkdown s)) =? 0)
       = false).
Proof.
  destruct (trim s) as [|c t] eqn:Ht.
  - left. split; [done |]. simpl. apply orb_true_r.
  - right.
    assert (s ≠ []) as Hs by (intros ->; done).
    assert (falsy s || falsy (c :: t) = false) as Hvalid
      by (by rewrite (falsy_false s)).
    destruct (parseCSV s) as [|r rs] eqn:Hp.
    + left. repeat split; try done. unfold csvToMarkdown. by rewrite Hp.
    + right. repeat split; try done.
      assert (trim (csvToMarkdown s) ≠ []) as Hout.
      { unfold csvToMarkdown. rewrite Hp.
        by apply convertToMarkdownTable_not_blank. }
      assert (csvToMarkdown s ≠ []) as Hmd
        by (intros Hmd; by rewrite Hmd in Hout).
      by rewrite falsy_false, length_eqb_0_false.
Qed.

(** X9: the entry point sets the output exactly when the parser returns a
    row: it then logs the sizes of the input and of the table, prints the
    table, sets it as the output [markdown-table] and shows its preview,
    and does not fail. An input that trims to nothing fails before
    anything is logged or parsed; an input that parses to no row fails
    after the first log. A failed run reports one message with
    [core.error] and [core.setFailed] and sets no output. *)
Theorem output_or_failure (csvinput : list N) :
  (parseCSV csvinput ≠ [] →
     hostCalls csvinput
     = [InfoProcessing (length csvinput) (length (split LF csvinput));
        InfoCompleted;
        InfoOutputSize (length (csvToMarkdown csvinput));
        ConsoleLog (str "Markdown table Created:" ++ LF ::
                    csvToMarkdown csvinput);
        CoreSetOutput "markdown-table" (csvToMarkdown csvinput);
        CoreDebug (str "Markdown preview:" ++ LF ::
                   join [LF] (previewLines (csvToMarkdown csvinput)))])
  ∧ (trim csvinput = [] →
     hostCalls csvinput
     = catchError "CSV input is empty or contains only whitespace")
  ∧ (trim csvinput ≠ [] → parseCSV csvinput = [] →
     hostCalls csvinput
     = InfoProcessing (length csvinput) (length (split LF csvinput))
       :: catchError "Failed to generate markdown table - output is empty")
  ∧ (∀ value,
       convertCSVToMarkdown csvinput = SetOutput value
       ↔ ∃ name, CoreSetOutput name value ∈ hostCalls csvinput)
  ∧ (∀ message,
       convertCSVToMarkdown csvinput = SetFailed message
       ↔ CoreSetFailed message ∈ hostCalls csvinput)
  ∧ (∀ name value message,
       CoreSetOutput name value ∈ hostCalls csvinput →
       CoreSetFailed message ∈ hostCalls csvinput → False).
Proof.
  unfold hostCalls, convertCSVToMarkdown, catchError.
  destruct (conversion_cases csvinput)
    as [(Ht & ->) | [(Ht & Hp & -> & Hmd) | (Ht & Hp & -> & Hout)]].
  - split; [intros Hp; destruct Hp; by apply parseCSV_blank, trim_blank_iff |].
    split; [done |]. split; [done |].
    split; [| split].
    + intros value. split; [done |]. intros (name & Hin).
      repeat (apply elem_of_cons in Hin as [Hin | Hin]; [done |]).
      by apply elem_of_nil in Hin.
    + intros message. split.
      * intros [= <-]. do 2 right. by left.
      * intros Hin.
        repeat (apply elem_of_cons in Hin as [Hin | Hin];
                [by try injection Hin as -> |]).
        by apply elem_of_nil in Hin.
    + intros name value message Hin _.
      repeat (apply elem_of_cons in Hin as [Hin | Hin]; [done |]).
      by apply elem_of_nil in Hin.
  - rewrite Hmd. simpl.
    split; [done |]. split; [done |]. split; [done |].
    split; [| split].
    + intros value. split; [done |]. intros (name & Hin).
      repeat (apply elem_of_cons in Hin as [Hin | Hin]; [done |]).
      by apply elem_of_nil in Hin.
    + intros message. split.
      * intros [= <-]. do 3 right. by left.
      * intros Hin.
        repeat (apply elem_of_cons in Hin as [Hin | Hin];
                [by try injection Hin as -> |]).
        by apply elem_of_nil in Hin.
    + intros name value message Hin _.
      repeat (apply elem_of_cons in Hin as [Hin | Hin]; [done |]).
      by apply elem_of_nil in Hin.
  - rewrite Hout.
    split; [done |]. split; [done |]. split; [done |].
    split; [| split].
    + intros value. split.
      * intros [= <-]. exists "markdown-table"%string. do 4 right. by left.
      * intros (name & Hin).
        repeat (apply elem_of_cons in Hin as [Hin | Hin];
                [by try injection Hin as _ -> |]).
        by apply elem_of_nil in Hin.
    + intros message. split; [done |]. intros Hin.
      repeat (apply elem_of_cons in Hin as [Hin | Hin]; [done |]).
      by apply elem_of_nil in Hin.
    + intros name value message _ Hin.
      repeat (apply elem_of_cons in Hin as [Hin | Hin]; [done |]).
      by apply elem_of_nil in Hin.
Qed.

Lemma output_or_failure_witness :
  parseCSV (str "Header") ≠ []
  ∧ hostCalls (str "Header")
    = [InfoProcessing 6 1;
       InfoCompleted;
       InfoOutputSize 21;
       ConsoleLog (str "Markdown table Created:" ++ LF ::
                   str "| Header |" ++ LF :: str "| ------ |");
       CoreSetOutput "markdown-table"
         (str "| Header |" ++ LF :: str "| ------ |");
       CoreDebug (str "Markdown preview:" ++ LF ::
                  str "| Header |" ++ LF :: str "| ------ |")].
Proof.
  assert (parseCSV (str "Header") ≠ []) as Hp by (by vm_compute).
  split; [exact Hp |].
  rewrite (proj1 (output_or_failure (str "Header")) Hp). reflexivity.
Defined.

(** ** The preview *)

Lemma split_nonempty sep s : split sep s ≠ [].
Proof.
  destruct s as [|c s]; simpl; [done |].
  destruct (c =? sep)%N; [done |]. by destruct (split sep s).
Qed.

(** Joining what [split] returns gives the string back. *)
Lemma join_split sep s : join [sep] (split sep s) = s.
Proof.
  induction s as [|c s IH]; simpl; [done |].
  destruct (N.eqb_spec c sep) as [-> | Hne].
  - rewrite join_cons by apply split_nonempty. by rewrite IH.
  - destruct (split sep s) as [|line lines] eqn:Hs;
      [by destruct (split_nonempty sep s) |].
    destruct lines as [|line' lines]; [simpl in *; by rewrite IH |].
    rewrite join_cons in IH |- * by done. by rewrite <- IH.
Qed.

Lemma length_split sep s : length (split sep s) = S (countChar sep s).
Proof.
  induction s as [|c s IH]; simpl; [done |].
  destruct (c =? sep)%N; simpl; [by rewrite IH |].
  destruct (split sep s) as [|line lines]; simpl in *; lia.
Qed.

Lemma join_app sep l1 l2 :
  l1 ≠ [] → l2 ≠ [] → join sep (l1 ++ l2) = join sep l1 ++ sep ++ join sep l2.
Proof.
  intros Hl1 Hl2. induction l1 as [|x l1 IH]; [done |].
  destruct l1 as [|y l1].
  - simpl app. by rewrite join_cons.
  - change ((x :: y :: l1) ++ l2) with (x :: ((y :: l1) ++ l2)).
    rewrite !join_cons by done. rewrite IH by done. by rewrite <- !app_assoc.
Qed.

(** X10: the preview that the entry point shows is the whole table when
    the table has at most five lines (fewer than five line feeds);
    otherwise it is the first five lines of the table, which the table
    starts with, and a sixth line of three dots. *)
Theorem preview_of_table (markdownTable : list N) :
  (countChar LF markdownTable < 5 →
     join [LF] (previewLines markdownTable) = markdownTable)
  ∧ (5 ≤ countChar LF markdownTable →
     join [LF] (previewLines markdownTable)
     = join [LF] (take 5 (split LF markdownTable)) ++ LF :: str "..."
     ∧ length (take 5 (split LF markdownTable)) = 5
     ∧ ∃ rest,
         markdownTable
         = join [LF] (take 5 (split LF markdownTable)) ++ LF :: rest)
  ∧ length (previewLines markdownTable) ≤ 6.
Proof.
  pose proof (length_split LF markdownTable) as Hlen.
  unfold previewLines. split; [| split].
  - intros Hfew. destruct (Nat.ltb_spec 5 (length (split LF markdownTable)));
      [lia |].
    rewrite take_ge by lia. apply join_split.
  - intros Hmany. destruct (Nat.ltb_spec 5 (length (split LF markdownTable)));
      [| lia].
    assert (length (take 5 (split LF markdownTable)) = 5) as Htake
      by (rewrite length_take; lia).
    assert (take 5 (split LF markdownTable) ≠ []) as Hne
      by (intros Hnil; by rewrite Hnil in Htake).
    split; [by rewrite join_app | split; [done |]].
    exists (join [LF] (drop 5 (split LF markdownTable))).
    rewrite <- (join_split LF markdownTable) at 1.
    rewrite <- (take_drop 5 (split LF markdownTable)) at 1.
    rewrite join_app; [done | done |].
    intros Hnil. apply (f_equal length) in Hnil.
    rewrite length_drop in Hnil. simpl in Hnil. lia.
  - destruct (5 <? length (split LF markdownTable));
      rewrite ?length_app, length_take; cbn [length]; lia.
Qed.

Lemma preview_of_table_witness :
  countChar LF (str "| Header |" ++ LF :: str "| ------ |") < 5
  ∧ join [LF] (previewLines (str "| Header |" ++ LF :: str "| ------ |"))
    = str "| Header |" ++ LF :: str "| ------ |".
Proof.
  assert (countChar LF (str "| Header |" ++ LF :: str "| ------ |") < 5)
    as Hfew by (vm_compute; lia).
  split; [exact Hfew |].
  exact (proj1 (preview_of_table _) Hfew).
Defined.

(** * The variants of the performance report *)

(** ** The single pass for the column widths *)

Lemma length_widenColumns r n : ∀ i ws,
  length (widenColumns r n i ws) = length ws.
Proof.
  induction n as [|n IH]; intros i ws; simpl; [done |].
  rewrite IH. case_match; by rewrite ?length_insert.
Qed.

Lemma widenColumns_lookup r n : ∀ i ws j,
  i + n ≤ length ws →
  widenColumns r n i ws !! j =
  if decide (i ≤ j < i + n)
  then Some (Nat.max (default 0 (ws !! j)) (cellLength j r))
  else ws !! j.
Proof.
  induction n as [|n IH]; intros i ws j Hlen; simpl.
  - case_decide; [lia | done].
  - destruct (lookup_lt_is_Some_2 ws i) as [w Hw]; [lia |].
    rewrite IH by (case_match; rewrite ?length_insert; lia).
    rewrite Hw. simpl. fold (cellLength i r).
    destruct (decide (j = i)) as [-> | Hne].
    + rewrite decide_False by lia. rewrite decide_True by lia. rewrite Hw.
      simpl. destruct (Nat.ltb_spec w (cellLength i r)).
      * rewrite list_lookup_insert_eq by lia. f_equal. lia.
      * rewrite Hw. f_equal. lia.
    + assert ((if w <? cellLength i r
               then <[i:=cellLength i r]> ws else ws) !! j = ws !! j) as ->.
      { case_match; [| done]. apply list_lookup_insert_ne. congruence. }
      repeat case_decide; done || lia.
Qed.

Lemma foldl_widenColumns_length n rs : ∀ ws,
  length (foldl (fun ws r => widenColumns r n 0 ws) ws rs) = length ws.
Proof.
  induction rs as [|r rs IH]; intros ws; simpl; [done |].
  by rewrite IH, length_widenColumns.
Qed.

Lemma foldl_widenColumns_lookup n rs : ∀ ws j,
  length ws = n → j < n →
  foldl (fun ws r => widenColumns r n 0 ws) ws rs !! j
  = Some (Nat.max (default 0 (ws !! j)) (max_list (cellLength j <$> rs))).
Proof.
  induction rs as [|r rs IH]; intros ws j Hlen Hj.
  - cbn [foldl]. destruct (lookup_lt_is_Some_2 ws j) as [w ->]; [lia |].
    simpl. f_equal. lia.
  - rewrite fmap_cons. cbn [foldl].
    rewrite IH by (by rewrite ?length_widenColumns).
    rewrite widenColumns_lookup, decide_True by lia.
    change (max_list (cellLength j r :: (cellLength j <$> rs)))
      with (Nat.max (cellLength j r) (max_list (cellLength j <$> rs))).
    cbn [from_option id]. f_equal. lia.
Qed.

Lemma max_cellLength_normalizedRows rs j :
  max_list (cellLength j <$> normalizedRows rs) = max_list (cellLength j <$> rs).
Proof.
  unfold normalizedRows. rewrite <- list_fmap_compose. f_equal.
  apply list_fmap_ext. intros _ r _. apply cellLength_normalizeRow.
Qed.

(** X11: the single pass of the report computes the widths that
    [convertToMarkdownTable] computes, for every table with a row (for
    the table with no row it has no result). *)
Theorem single_pass_widths (rs : list (list (list N))) (Hrs : rs ≠ []) :
  calculateColumnWidths rs = Some (columnWidths rs).
Proof.
  destruct rs as [|r0 rest]; [done |]. unfold calculateColumnWidths. f_equal.
  set (rs := r0 :: rest).
  apply list_eq. intros j.
  destruct (decide (j < columnCount rs)) as [Hj | Hj].
  - rewrite columnWidths_lookup, max_cellLength_normalizedRows by done.
    rewrite foldl_widenColumns_lookup by (by rewrite ?length_replicate).
    rewrite lookup_replicate_2 by done. simpl. f_equal. lia.
  - rewrite !(lookup_ge_None_2 _ j); [done | |].
    + rewrite length_columnWidths. lia.
    + rewrite foldl_widenColumns_length, length_replicate. lia.
Qed.

Lemma single_pass_widths_witness :
  [[str "Name"; str "Age"]; [str "John"]] ≠ []
  ∧ calculateColumnWidths [[str "Name"; str "Age"]; [str "John"]]
    = Some [4; 3].
Proof.
  assert ([[str "Name"; str "Age"]; [str "John"]] ≠ []) as Hrs by done.
  split; [exact Hrs |].
  rewrite (single_pass_widths _ Hrs). reflexivity.
Defined.

(** ** The padding cache *)

Lemma noColon_app s1 s2 : noColon s1 → noColon s2 → noColon (s1 +:+ s2).
Proof. intros H1 H2. induction s1 as [|c s1 IH]; simpl in *; [done |]. tauto. Qed.

Lemma pretty_N_char_noColon x : pretty_N_char x ≠ ":"%char.
Proof. unfold pretty_N_char. by repeat case_match. Qed.

Lemma pretty_N_go_noColon x : ∀ s, noColon s → noColon (pretty_N_go x s).
Proof.
  induction (N.lt_wf_0 x) as [x _ IH]; intros s Hs.
  destruct (decide (0 < x)%N) as [Hx | Hx].
  - rewrite pretty_N_go_step by done. apply IH.
    + by apply N.div_lt.
    + split; [apply pretty_N_char_noColon | done].
  - assert (x = 0%N) as -> by lia. by rewrite pretty_N_go_0.
Qed.

Lemma pretty_nat_noColon (n : nat) : noColon (pretty n).
Proof.
  unfold pretty, pretty_nat, pretty, pretty_N.
  case_decide; [by repeat split |]. by apply pretty_N_go_noColon.
Qed.

Lemma colon_split d1 : ∀ d2 e1 e2,
  noColon d1 → noColon d2 →
  (d1 +:+ String ":" e1 = d2 +:+ String ":" e2)%string → d1 = d2 ∧ e1 = e2.
Proof.
  induction d1 as [|c d1 IH]; intros [|c' d2] e1 e2 H1 H2 Heq; simpl in *.
  - by injection Heq as ->.
  - injection Heq as <- _. by destruct H2.
  - injection Heq as -> _. by destruct H1.
  - injection Heq as -> Heq. destruct H1 as [_ H1], H2 as [_ H2].
    destruct (IH _ _ _ H1 H2 Heq) as [-> ->]. done.
Qed.

(** Two keys are equal only for the same length and the same width. *)
Lemma cacheKey_inj l1 w1 l2 w2 :
  cacheKey l1 w1 = cacheKey l2 w2 → l1 = l2 ∧ w1 = w2.
Proof.
  unfold cacheKey. intros Heq.
  apply colon_split in Heq as [Hl Hw]; try apply pretty_nat_noColon.
  split; by apply (inj pretty).
Qed.

Lemma cacheSound_empty : cacheSound ∅.
Proof. intros l w padding Hget. by rewrite lookup_empty in Hget. Qed.

Lemma getPaddedString_sound s width cache :
  cacheSound cache →
  (getPaddedString s width cache).1 = padEnd s width
  ∧ cacheSound (getPaddedString s width cache).2
  ∧ cache ⊆ (getPaddedString s width cache).2.
Proof.
  intros Hcache. unfold getPaddedString, padEnd.
  destruct (cache !! cacheKey (length s) width) as [padding|] eqn:Hget; simpl.
  - split; [by rewrite (Hcache _ _ _ Hget) |]. done.
  - rewrite ?Nat.max_0_l. split; [done |]. split.
    + intros l w padding Hget'.
      destruct (decide (cacheKey (length s) width = cacheKey l w)) as [Heq | Hne].
      * rewrite Heq, lookup_insert_eq in Hget'. injection Hget' as <-.
        by apply cacheKey_inj in Heq as [-> ->].
      * rewrite lookup_insert_ne in Hget' by done. by apply (Hcache l w).
    + by apply insert_subseteq.
Qed.

Lemma padEach_sound calls : ∀ cache,
  cacheSound cache →
  (padEach calls cache).1 = (fun call => padEnd call.1 call.2) <$> calls
  ∧ cacheSound (padEach calls cache).2.
Proof.
  induction calls as [|[s width] calls IH]; intros cache Hcache; [done |].
  cbn [padEach].
  destruct (getPaddedString_sound s width cache Hcache) as (Hpad & Hsound & _).
  destruct (getPaddedString s width cache) as [padded cache1]. simpl in *.
  destruct (IH cache1 Hsound) as [Hrest Hsound2].
  destruct (padEach calls cache1) as [rest cache2]. simpl in *.
  by rewrite Hpad, Hrest.
Qed.

(** X12: the cache of paddings cannot be observed: a key stands for one
    length and one width only, so that, when every padding in the cache is
    the one that would be computed (as in the empty cache),
    [getPaddedString] returns what [padEnd] returns, keeps what the cache
    holds and leaves the cache in the same condition; every run of calls
    that starts with the empty cache returns the padded strings. *)
Theorem padding_cache_is_transparent (s : list N) (width : nat)
  (paddingCache : gmap string (list N)) (Hcache : cacheSound paddingCache) :
  (getPaddedString s width paddingCache).1 = padEnd s width
  ∧ cacheSound (getPaddedString s width paddingCache).2
  ∧ paddingCache ⊆ (getPaddedString s width paddingCache).2
  ∧ (∀ l1 w1 l2 w2, cacheKey l1 w1 = cacheKey l2 w2 → l1 = l2 ∧ w1 = w2)
  ∧ (∀ calls,
       (padEach calls ∅).1 = (fun call => padEnd call.1 call.2) <$> calls).
Proof.
  destruct (getPaddedString_sound s width paddingCache Hcache)
    as (Hpad & Hsound & Hsub).
  split; [done |]. split; [done |]. split; [done |].
  split; [apply cacheKey_inj |].
  intros calls. by apply padEach_sound, cacheSound_empty.
Qed.

Lemma padding_cache_is_transparent_witness :
  cacheSound ∅
  ∧ (getPaddedString (str "ab") 4 (getPaddedString (str "cd") 4 ∅).2).1
    = str "ab  ".
Proof.
  split; [exact cacheSound_empty |].
  destruct (padding_cache_is_transparent (str "cd") 4 ∅ cacheSound_empty)
    as (_ & Hsound & _).
  rewrite (proj1 (padding_cache_is_transparent (str "ab") 4 _ Hsound)).
  reflexivity.
Defined.

(** ** The fast parser *)

Lemma splitLines_cons c s :
  c ≠ LF → c ≠ CR →
  splitLines (c :: s) =
  match splitLines s with
  | line :: lines => (c :: line) :: lines
  | [] => [[c]]
  end.
Proof.
  intros Hlf Hcr. simpl.
  destruct (N.eqb_spec c LF); [done |]. destruct (N.eqb_spec c CR); [done |].
  by destruct s.
Qed.

(** A text without line feed and carriage return is a line of its own. *)
Lemma splitLines_line text :
  Forall (fun c => c ≠ LF ∧ c ≠ CR) text →
  splitLines text = [text]
  ∧ (∀ rest, splitLines (text ++ LF :: rest) = text :: splitLines rest)
  ∧ (∀ rest, splitLines (text ++ CR :: LF :: rest) = text :: splitLines rest).
Proof.
  induction 1 as [|c text [Hlf Hcr] _ (IH1 & IH2 & IH3)]; [done |].
  split; [| split].
  - by rewrite splitLines_cons, IH1.
  - intros rest. change ((c :: text) ++ LF :: rest) with (c :: (text ++ LF :: rest)).
    by rewrite splitLines_cons, IH2.
  - intros rest.
    change ((c :: text) ++ CR :: LF :: rest)
      with (c :: (text ++ CR :: LF :: rest)).
    by rewrite splitLines_cons, IH3.
Qed.

Lemma splitLines_join sep texts :
  sep = [LF] ∨ sep = [CR; LF] → texts ≠ [] →
  Forall (Forall (fun c => c ≠ LF ∧ c ≠ CR)) texts →
  splitLines (join sep texts) = texts.
Proof.
  intros Hsep Hne Htexts. induction Htexts as [|text texts Htext _ IH]; [done |].
  destruct (splitLines_line text Htext) as (H1 & H2 & H3).
  destruct texts as [|text' texts]; [done |].
  rewrite join_cons by done.
  destruct Hsep as [-> | ->].
  - change ([LF] ++ join [LF] (text' :: texts))
      with (LF :: join [LF] (text' :: texts)).
    by rewrite H2, IH.
  - change ([CR; LF] ++ join [CR; LF] (text' :: texts))
      with (CR :: LF :: join [CR; LF] (text' :: texts)).
    by rewrite H3, IH.
Qed.

Lemma split_part sep text :
  Forall (fun c => c ≠ sep) text →
  split sep text = [text]
  ∧ ∀ rest, split sep (text ++ sep :: rest) = text :: split sep rest.
Proof.
  induction 1 as [|c text Hc _ (IH1 & IH2)].
  - split; [done |]. intros rest. simpl. by rewrite N.eqb_refl.
  - apply N.eqb_neq in Hc. split.
    + simpl. by rewrite Hc, IH1.
    + intros rest. simpl. by rewrite Hc, IH2.
Qed.

(** Cutting at the separator what was joined with it gives the parts
    back, when no part contains the separator. *)
Lemma split_join sep parts :
  parts ≠ [] → Forall (Forall (fun c => c ≠ sep)) parts →
  split sep (join [sep] parts) = parts.
Proof.
  intros Hne Hparts. induction Hparts as [|part parts Hpart _ IH]; [done |].
  destruct (split_part sep part Hpart) as [H1 H2].
  destruct parts as [|part' parts]; [done |].
  rewrite join_cons by done.
  change ([sep] ++ join [sep] (part' :: parts))
    with (sep :: join [sep] (part' :: parts)).
  by rewrite H2, IH.
Qed.

Lemma csvLine_no_line_end cells :
  Forall plain cells → Forall (fun c => c ≠ LF ∧ c ≠ CR) (csvLine cells).
Proof.
  intros Hcells. apply Forall_join; [by repeat constructor |].
  eapply Forall_impl; [done |]. intros cell Hcell.
  eapply Forall_impl; [done |]. simpl. by intros c (_ & _ & ? & ?).
Qed.

Lemma split_csvLine cells :
  cells ≠ [] → Forall plain cells → split COMMA (csvLine cells) = cells.
Proof.
  intros Hne Hcells. apply split_join; [done |].
  eapply Forall_impl; [done |]. intros cell Hcell.
  eapply Forall_impl; [done |]. simpl. by intros c (? & _).
Qed.

Lemma existsb_quote_app s t :
  existsb (fun c => (c =? DQ)%N) (s ++ t)
  = existsb (fun c => (c =? DQ)%N) s || existsb (fun c => (c =? DQ)%N) t.
Proof. apply existsb_app. Qed.

Lemma no_quote_ws w :
  allWhiteSpace w = true → existsb (fun c => (c =? DQ)%N) w = false.
Proof.
  induction w as [|c w IH]; [done |]. simpl.
  destruct (isWhiteSpace c) eqn:Hc; [| done]. simpl. intros Hw.
  rewrite IH by done. destruct (N.eqb_spec c DQ) as [-> |]; done.
Qed.

Lemma no_quote_Forall s :
  Forall (fun c => c ≠ DQ) s → existsb (fun c => (c =? DQ)%N) s = false.
Proof.
  induction 1 as [|c s Hc _ IH]; [done |]. simpl.
  rewrite IH. by apply N.eqb_neq in Hc as ->.
Qed.

(** X13: on an input whose trim is a text of lines of plain cells, joined
    by line feeds or by carriage return and line feed, the fast parser of
    the report returns the trimmed cells of every line, the blank lines
    among them, where [parseCSV] leaves the blank lines out; the two
    agree when no line is blank. Such an input has no quote, so that it
    is taken for a simple one when it has fewer than 9999 line feeds. *)
Theorem fast_parser_on_plain_lines (csvString sep : list N)
  (lines : list (list (list N)))
  (Hsep : sep = [LF] ∨ sep = [CR; LF])
  (Hne : lines ≠ [])
  (Hlines : Forall (fun cells => cells ≠ [] ∧ Forall plain cells) lines)
  (Htrim : trim csvString = join sep (csvLine <$> lines)) :
  parseSimpleCSV csvString = trimRows lines
  ∧ parseCSV csvString = keptRows (trimRows lines)
  ∧ (Forall (fun r => someNonEmpty r = true) (trimRows lines) →
     parseSimpleCSV csvString = parseCSV csvString)
  ∧ ((N.of_nat (S (countChar LF csvString)) < 10000)%N →
     isSimpleCSV csvString = true).
Proof.
  assert (parseSimpleCSV csvString = trimRows lines) as Hfast.
  { unfold parseSimpleCSV. rewrite Htrim, splitLines_join.
    - rewrite <- list_fmap_compose. unfold trimRows.
      apply Forall_fmap_ext_1. eapply Forall_impl; [done |].
      intros cells [Hc Hplain]. simpl. by rewrite split_csvLine.
    - done.
    - by destruct lines.
    - apply Forall_fmap. eapply Forall_impl; [done |].
      intros cells [_ Hplain]. by apply csvLine_no_line_end. }
  assert (parseCSV csvString = keptRows (trimRows lines)) as Hfull.
  { rewrite <- parseCSV_trim, Htrim, parseCSV_scan. unfold initial.
    rewrite scan_lines, foldl_pushRow; [done | | done].
    destruct Hsep as [-> | ->]; auto. }
  split; [done |]. split; [done |]. split.
  - intros Hkept. by rewrite Hfast, Hfull, keptRows_all.
  - intros Hfew. unfold isSimpleCSV. rewrite length_split.
    apply andb_true_intro. split; [| by apply N.ltb_lt].
    apply negb_true_iff.
    destruct (trimStart_split csvString) as (a & Hs & Ha).
    destruct (trimEnd_split (trimStart csvString)) as (b & Hs' & Hb).
    change (trimEnd (trimStart csvString)) with (trim csvString) in Hs'.
    rewrite Hs, Hs', !existsb_quote_app, Htrim.
    rewrite (no_quote_ws a), (no_quote_ws b) by done.
    rewrite orb_false_r. simpl. apply no_quote_Forall.
    apply Forall_join.
    + destruct Hsep as [-> | ->]; by repeat constructor.
    + apply Forall_fmap. eapply Forall_impl; [done |].
      intros cells [_ Hplain]. apply Forall_join; [by repeat constructor |].
      eapply Forall_impl; [done |]. intros cell Hcell.
      eapply Forall_impl; [done |]. simpl. by intros c (_ & ? & _).
Qed.

Lemma fast_parser_on_plain_lines_witness :
  Forall (fun cells => cells ≠ [] ∧ Forall plain cells)
    [[str "Name"; str "Age"]; [[]]; [str "John"; str " 25"]]
  ∧ trim (LF :: str "Name,Age" ++ LF :: LF :: str "John, 25 ")
    = join [LF] (csvLine <$> [[str "Name"; str "Age"]; [[]];
                              [str "John"; str " 25"]])
  ∧ parseSimpleCSV (LF :: str "Name,Age" ++ LF :: LF :: str "John, 25 ")
    = [[str "Name"; str "Age"]; [[]]; [str "John"; str "25"]].
Proof.
  assert (Forall (fun cells => cells ≠ [] ∧ Forall plain cells)
            [[str "Name"; str "Age"]; [[]]; [str "John"; str " 25"]])
    as Hlines.
  { repeat (constructor;
              [split; [done |];
               repeat (constructor; [by apply isPlain_plain |]); constructor |]).
    constructor. }
  assert (trim (LF :: str "Name,Age" ++ LF :: LF :: str "John, 25 ")
          = join [LF] (csvLine <$> [[str "Name"; str "Age"]; [[]];
                                    [str "John"; str " 25"]])) as Htrim
    by reflexivity.
  assert ([[str "Name"; str "Age"]; [[]]; [str "John"; str " 25"]] ≠ [])
    as Hne by done.
  split; [exact Hlines |]. split; [exact Htrim |].
  rewrite (proj1 (fast_parser_on_plain_lines _ [LF] _ (or_introl eq_refl)
                    Hne Hlines Htrim)).
  reflexivity.
Defined.
